(** * linkinator: the crawl engine of [LinkChecker], embedded and verified

    The development follows [index.ts]: the [LinkChecker] class with its
    [check], [_startStaticWebServer], [_fetch] and
    [_filterCachedFilterSkippedThenCrawlUrlAndChildren] methods.  The
    asynchronous methods are sequential ([await] on every call), so they
    are written in a state-and-exception monad over the objects the run
    shares: the [Set] of scanned URLs, the results array, the caller's
    options object, and the traces of what the run did to the outside
    world (event emissions, transport requests, server operations). *)

From Stdlib Require Import ZArith String List Ascii DecimalString Lia.
From stdpp Require Import base gmap sets list strings.

Open Scope string_scope.
Open Scope list_scope.
Open Scope Z_scope.

(** ** Data model *)

Inductive LinkState := OK | BROKEN | SKIPPED.

Definition LinkState_eqb (a b : LinkState) : bool :=
  match a, b with
  | OK, OK | BROKEN, BROKEN | SKIPPED, SKIPPED => true
  | _, _ => false
  end.

(** [status?: number]: the field may be absent. *)
Record LinkResult := {
  url : string;
  status : option Z;
  state : LinkState
}.

Record CrawlResult := {
  passed : bool;
  links : list LinkResult
}.

(** [port?], [recurse?] and [linksToSkip?] are optional in the source. *)
Record CheckOptions := {
  port : option Z;
  path : string;
  recurse : option bool;
  linksToSkip : option (list string)
}.

Definition set_linksToSkip (o : CheckOptions) (l : list string) : CheckOptions :=
  {| port := port o; path := path o; recurse := recurse o; linksToSkip := Some l |}.

Definition set_path (o : CheckOptions) (p : string) : CheckOptions :=
  {| port := port o; path := p; recurse := recurse o; linksToSkip := linksToSkip o |}.

(** The transport ([gaxios.request]): what is asked and what comes back. *)
Inductive Method := GET | HEAD.
Inductive ResponseType := text | stream.

Record Request := {
  req_method : Method;
  req_url : string;
  req_responseType : ResponseType
}.

Record Response := {
  res_status : Z;
  res_headers : gmap string string;
  res_data : string
}.

(** The object [_fetch] returns. *)
Record FetchResult := {
  data : string;
  shouldRecurse : bool;
  linkResult : LinkResult
}.

(** [emit] takes any value: the ['link'] event is emitted with a
    [LinkResult] on the skip path and with the object [_fetch] returned on
    the fetch path.  The listeners live outside the class; emitting is
    recorded, not dispatched. *)
Inductive Payload :=
| PLinkResult (r : LinkResult)
| PFetchResult (f : FetchResult).

Inductive Event :=
| link (p : Payload)
| pagestart (u : string).

Record Server := {
  server_root : string;
  server_port : Z
}.

Inductive ServerOp :=
| listening (s : Server)
| destroyed (s : Server).

Inductive Error :=
| SyntaxError (pattern : string)   (* [new RegExp] on an invalid pattern *)
| TypeError                        (* [.map] of [undefined] *)
| RequestError (r : Request)       (* [gaxios.request] rejected *)
| ListenError (s : Server).        (* the http server emitted ['error'] *)

(** ** Pure helpers *)

(** [haystack.match(needle)] for a needle without regex metacharacters:
    an unanchored substring search. *)
Fixpoint includes (needle haystack : string) : bool :=
  String.prefix needle haystack ||
  match haystack with
  | EmptyString => false
  | String _ rest => includes needle rest
  end.

(** [isHtml(response)] *)
Definition isHtml (response : Response) : bool :=
  let contentType := default "" (res_headers response !! "content-type") in
  includes "text/html" contentType.

(** Template-literal printing of an integer. *)
Definition string_of_Z (z : Z) : string := NilZero.string_of_int (Z.to_int z).

Definition is_broken (x : LinkResult) : bool := LinkState_eqb (state x) BROKEN.

(** The collaborators outside the class: the transport, the link
    extractor of [./links], the regular-expression engine and the
    operating system's sockets.  [World] is whatever state they share;
    [new_RegExp] answers [None] where the constructor throws. *)
Class Collaborators := {
  World : Type;
  gaxios_request : Request → World → option Response * World;
  getLinks : string → string → list string;
  RegExp : Type;
  new_RegExp : string → option RegExp;
  RegExp_test : RegExp → string → bool;
  http_listen : Server → World → bool * World
}.

Section LinkChecker.

Context `{Collaborators}.

(** ** The state of a run *)

Record State := {
  world : World;
  options : CheckOptions;        (* the caller's options object *)
  cache : gset string;           (* [opts.cache] *)
  results : list LinkResult;     (* [opts.results] *)
  emitted : list Event;          (* calls of [this.emit], oldest first *)
  requests : list Request;       (* calls of [gaxios.request], oldest first *)
  servers : list ServerOp        (* servers started and destroyed *)
}.

Inductive Outcome (A : Type) :=
| Done (a : A) (s : State)       (* the promise resolved *)
| Throw (e : Error) (s : State)  (* the promise rejected *)
| OutOfFuel.                     (* the model ran out of steps *)
Arguments Done {A} a s.
Arguments Throw {A} e s.
Arguments OutOfFuel {A}.

Definition M (A : Type) : Type := State → Outcome A.

Definition ret {A} (a : A) : M A := fun s => Done a s.

Definition bind {A B} (m : M A) (k : A → M B) : M B :=
  fun s =>
    match m s with
    | Done a s' => k a s'
    | Throw e s' => Throw e s'
    | OutOfFuel => OutOfFuel
    end.

Definition throw {A} (e : Error) : M A := fun s => Throw e s.

(** [try { m } catch (err) { h }] *)
Definition try_catch {A} (m : M A) (h : Error → M A) : M A :=
  fun s =>
    match m s with
    | Throw e s' => h e s'
    | r => r
    end.

Notation "'let*' x := m 'in' k" := (bind m (fun x => k))
  (at level 10, x name, m at level 100, k at level 200, only parsing).
Notation "'run' m 'in' k" := (bind m (fun _ => k))
  (at level 10, m at level 100, k at level 200, only parsing).

Fixpoint mapM {A B} (f : A → M B) (l : list A) : M (list B) :=
  match l with
  | [] => ret []
  | a :: l' =>
      let* b := f a in
      let* bs := mapM f l' in
      ret (b :: bs)
  end.

Fixpoint forEach {A} (l : list A) (f : A → M unit) : M unit :=
  match l with
  | [] => ret tt
  | a :: l' => run f a in forEach l' f
  end.

(** *** Primitive operations *)

Definition cache_has (u : string) : M bool :=
  fun s => Done (bool_decide (u ∈ cache s)) s.

Definition cache_add (u : string) : M unit :=
  fun s => Done tt
    {| world := world s; options := options s; cache := {[u]} ∪ cache s;
       results := results s; emitted := emitted s; requests := requests s;
       servers := servers s |}.

Definition results_push (r : LinkResult) : M unit :=
  fun s => Done tt
    {| world := world s; options := options s; cache := cache s;
       results := results s ++ [r]; emitted := emitted s;
       requests := requests s; servers := servers s |}.

Definition get_results : M (list LinkResult) :=
  fun s => Done (results s) s.

Definition emit (e : Event) : M unit :=
  fun s => Done tt
    {| world := world s; options := options s; cache := cache s;
       results := results s; emitted := emitted s ++ [e];
       requests := requests s; servers := servers s |}.

(** [await gaxios.request(r)] with [validateStatus: () => true]: every
    status resolves, only a transport failure rejects. *)
Definition request (r : Request) : M Response :=
  fun s =>
    let '(res, w) := gaxios_request r (world s) in
    let s' :=
      {| world := w; options := options s; cache := cache s;
         results := results s; emitted := emitted s;
         requests := requests s ++ [r]; servers := servers s |} in
    match res with
    | Some response => Done response s'
    | None => Throw (RequestError r) s'
    end.

Definition get_options : M CheckOptions :=
  fun s => Done (options s) s.

Definition put_options (o : CheckOptions) : M unit :=
  fun s => Done tt
    {| world := world s; options := o; cache := cache s;
       results := results s; emitted := emitted s;
       requests := requests s; servers := servers s |}.

(** [results: [], cache: new Set()] of the [CrawlOptions] literal. *)
Definition new_crawl : M unit :=
  fun s => Done tt
    {| world := world s; options := options s; cache := ∅;
       results := []; emitted := emitted s;
       requests := requests s; servers := servers s |}.

Definition log_server (op : ServerOp) (w : World) (s : State) : State :=
  {| world := w; options := options s; cache := cache s;
     results := results s; emitted := emitted s;
     requests := requests s; servers := servers s ++ [op] |}.

(** [_startStaticWebServer(root, port)]: resolves with the server once it
    listens, rejects when the server emits ['error']. *)
Definition _startStaticWebServer (root : string) (port : Z) : M Server :=
  fun s =>
    let server := {| server_root := root; server_port := port |} in
    let '(ok, w) := http_listen server (world s) in
    if ok then Done server (log_server (listening server) w s)
    else Throw (ListenError server)
           {| world := w; options := options s; cache := cache s;
              results := results s; emitted := emitted s;
              requests := requests s; servers := servers s |}.

(** [server.destroy()] *)
Definition destroy (server : Server) : M unit :=
  fun s => Done tt (log_server (destroyed server) (world s) s).

(** ** [_fetch] *)

Definition classify (st : Z) : LinkState :=
  if (200 <=? st) && (st <? 300) then OK else BROKEN.

(** The locals [status], [state], [data] and [shouldRecurse] are assigned
    after the last [await] of the [try] block, so the [catch] branch
    always sees their initial values. *)
Definition _fetch (url : string) (shouldCrawl : bool) : M FetchResult :=
  try_catch
    (let* res := request {| req_method := if shouldCrawl then GET else HEAD;
                            req_url := url;
                            req_responseType := if shouldCrawl then text else stream |} in
     let* res := (if res_status res =? 405
                  then request {| req_method := GET; req_url := url;
                                  req_responseType := stream |}
                  else ret res) in
     ret {| data := res_data res;
            shouldRecurse := isHtml res;
            linkResult := {| url := url; status := Some (res_status res);
                             state := classify (res_status res) |} |})
    (fun _ =>
     ret {| data := "";
            shouldRecurse := false;
            linkResult := {| url := url; status := Some 0; state := BROKEN |} |}).

(** ** [_filterCachedFilterSkippedThenCrawlUrlAndChildren] *)

(** [new RegExp(linkToSkip).test(opts.url)] *)
Definition test_skip (u linkToSkip : string) : M bool :=
  match new_RegExp linkToSkip with
  | Some re => ret (RegExp_test re u)
  | None => throw (SyntaxError linkToSkip)
  end.

(** [opts.checkOptions.linksToSkip!.map(...).filter(match => !!match)] *)
Definition compute_skips (checkOptions : CheckOptions) (u : string) : M (list bool) :=
  match linksToSkip checkOptions with
  | Some l =>
      let* matches := mapM (test_skip u) l in
      ret (List.filter (fun m => m) matches)
  | None => throw TypeError
  end.

(** [opts.checkOptions.recurse! && url.startsWith(opts.checkOptions.path)] *)
Definition child_crawl (checkOptions : CheckOptions) (u : string) : bool :=
  default false (recurse checkOptions) && String.prefix (path checkOptions) u.

Fixpoint _filterCachedFilterSkippedThenCrawlUrlAndChildren
    (fuel : nat) (checkOptions : CheckOptions) (url : string) (crawl : bool)
    : M (list LinkResult) :=
  match fuel with
  | O => fun _ => OutOfFuel
  | S fuel' =>
    let* hit := cache_has url in
    if hit then get_results
    else
      run cache_add url in
      let* skips := compute_skips checkOptions url in
      if (0 <? length skips)%nat then
        let result := {| url := url; status := None; state := SKIPPED |} in
        run results_push result in
        run emit (link (PLinkResult result)) in
        get_results
      else
        let* fetchResult := _fetch url crawl in
        run results_push (linkResult fetchResult) in
        run emit (link (PFetchResult fetchResult)) in
        run (if crawl && shouldRecurse fetchResult then
               run emit (pagestart url) in
               forEach (getLinks (data fetchResult) url)
                 (fun u =>
                    run _filterCachedFilterSkippedThenCrawlUrlAndChildren
                          fuel' checkOptions u (child_crawl checkOptions u) in
                    ret tt)
             else ret tt) in
        get_results
  end.

(** ** [check] *)

(** [options.port || 5000 + Math.round(Math.random() * 1000)], where
    [random] is the value of [Math.round(Math.random() * 1000)]. *)
Definition choose_port (o : CheckOptions) (random : Z) : Z :=
  match port o with
  | Some p => if p =? 0 then 5000 + random else p
  | None => 5000 + random
  end.

Definition check (fuel : nat) (random : Z) : M CrawlResult :=
  let* options0 := get_options in
  run put_options (set_linksToSkip options0
                     (default [] (linksToSkip options0) ++ ["^mailto:"])) in
  let* options1 := get_options in
  let* server :=
    (if negb (String.prefix "http" (path options1)) then
       let port := choose_port options1 random in
       let* server := _startStaticWebServer (path options1) port in
       run put_options (set_path options1 ("http://localhost:" ++ string_of_Z port)) in
       ret (Some server)
     else ret None) in
  let* options2 := get_options in
  run new_crawl in
  let* results := _filterCachedFilterSkippedThenCrawlUrlAndChildren
                    fuel options2 (path options2) true in
  let result :=
    {| links := results;
       passed := (length (List.filter is_broken results) =? 0)%nat |} in
  run match server with
      | Some srv => destroy srv
      | None => ret tt
      end in
  ret result.

(** A fresh checker handed the caller's options object. *)
Definition initial (w : World) (o : CheckOptions) : State :=
  {| world := w; options := o; cache := ∅; results := []; emitted := [];
     requests := []; servers := [] |}.

End LinkChecker.

Arguments Done {_ A} a s.
Arguments Throw {_ A} e s.
Arguments OutOfFuel {_ A}.

(** ** A concrete world to run the checker in

    A static web: a table from method and URL to the response (a URL
    missing from the table is unreachable), and the ports already bound on
    this machine. *)
Module Demo.

Record Web := {
  pages : list (Method * string * Response);
  busy : list Z
}.

Definition Method_eqb (a b : Method) : bool :=
  match a, b with
  | GET, GET | HEAD, HEAD => true
  | _, _ => false
  end.

Fixpoint lookup_page (m : Method) (u : string)
    (l : list (Method * string * Response)) : option Response :=
  match l with
  | [] => None
  | (m', u', r) :: l' =>
      if Method_eqb m m' && String.eqb u u' then Some r else lookup_page m u l'
  end.

Definition request (r : Request) (w : Web) : option Response * Web :=
  (lookup_page (req_method r) (req_url r) (pages w), w).

Definition listen (s : Server) (w : Web) : bool * Web :=
  (negb (existsb (Z.eqb (server_port s)) (busy w)), w).

(** Pages of the demo web list their links separated by spaces. *)
Fixpoint words (acc s : string) : list string :=
  match s with
  | EmptyString => if String.eqb acc "" then [] else [acc]
  | String c rest =>
      if Ascii.eqb c " "
      then (if String.eqb acc "" then words "" rest else acc :: words "" rest)
      else words (acc ++ String c "") rest
  end.

Definition extract (source baseUrl : string) : list string := words "" source.

(** The fragment of the regular-expression engine the examples need: a
    pattern of ordinary characters, optionally anchored by a leading [^],
    and the unterminated group, which [new RegExp] rejects.  No example
    uses a pattern outside this fragment. *)
Inductive Pattern :=
| Anchored (literal : string)
| Floating (literal : string).

Definition metachar (c : ascii) : bool :=
  existsb (Ascii.eqb c)
    ["("; ")"; "["; "]"; "{"; "}"; "*"; "+"; "?"; "|"; "\"; "."; "$"; "^"]%char.

Fixpoint ordinary (s : string) : bool :=
  match s with
  | EmptyString => true
  | String c rest => negb (metachar c) && ordinary rest
  end.

Definition compile (p : string) : option Pattern :=
  match p with
  | String "^" rest => if ordinary rest then Some (Anchored rest) else None
  | _ => if ordinary p then Some (Floating p) else None
  end.

Definition search (re : Pattern) (u : string) : bool :=
  match re with
  | Anchored l => String.prefix l u
  | Floating l => includes l u
  end.

Definition demo : Collaborators :=
  {| World := Web; gaxios_request := request; getLinks := extract;
     RegExp := Pattern; new_RegExp := compile; RegExp_test := search;
     http_listen := listen |}.

Definition html (st : Z) (body : string) : Response :=
  {| res_status := st;
     res_headers := {["content-type" := "text/html; charset=utf-8"]};
     res_data := body |}.

Definition plain (st : Z) (body : string) : Response :=
  {| res_status := st;
     res_headers := {["content-type" := "text/plain"]};
     res_data := body |}.

(** A small site under [http://x/a] with a link to a host that is down,
    a link out of the site that rejects HEAD, a mail link, a missing page
    and a link back to the target. *)
Definition body1 : string :=
  "http://x/a/b http://down/ http://other/ mailto:me@x http://x/a".

Definition web1 : Web :=
  {| pages :=
       [ (GET, "http://x/a", html 200 body1);
         (GET, "http://x/a/b", html 200 "http://x/a http://x/a/c");
         (HEAD, "http://other/", html 405 "");
         (GET, "http://other/", html 200 "http://other/deep");
         (GET, "http://x/a/c", plain 404 "") ];
     busy := [] |}.

Definition opts1 : CheckOptions :=
  {| port := None; path := "http://x/a"; recurse := Some true;
     linksToSkip := None |}.

(** A single page that is not HTML. *)
Definition web2 : Web :=
  {| pages := [ (GET, "http://x/ok", plain 200 "") ]; busy := [] |}.

Definition opts2 : CheckOptions :=
  {| port := None; path := "http://x/ok"; recurse := None;
     linksToSkip := Some [] |}.

(** A directory served on port 8080. *)
Definition web3 : Web :=
  {| pages :=
       [ (GET, "http://localhost:8080", html 200 "http://localhost:8080/about");
         (GET, "http://localhost:8080/about", plain 200 "") ];
     busy := [] |}.

Definition opts3 : CheckOptions :=
  {| port := Some 8080; path := "site"; recurse := Some true;
     linksToSkip := Some [] |}.

(** A directory checked with a skip pattern that is not a regular
    expression. *)
Definition opts4 : CheckOptions :=
  {| port := None; path := "site"; recurse := Some true;
     linksToSkip := Some ["("] |}.

End Demo.

(** More worlds for the examples. *)
Module Site.

(** A missing page served as HTML, with a link on it. *)
Definition web4 : Demo.Web :=
  {| Demo.pages :=
       [ (GET, "http://x/gone", Demo.html 404 "http://x/home");
         (GET, "http://x/home", Demo.plain 200 "") ];
     Demo.busy := [] |}.

Definition opts4 : CheckOptions :=
  {| port := None; path := "http://x/gone"; recurse := Some true;
     linksToSkip := None |}.

(** The directory of [Demo.web3] when port 8080 is taken. *)
Definition web5 : Demo.Web :=
  {| Demo.pages := Demo.pages Demo.web3; Demo.busy := [8080] |}.

(** The first demo site checked without [recurse]. *)
Definition opts6 : CheckOptions :=
  {| port := None; path := "http://x/a"; recurse := None;
     linksToSkip := Some [] |}.

(** A target that a skip pattern matches. *)
Definition opts7 : CheckOptions :=
  {| port := None; path := "http://x/a"; recurse := Some true;
     linksToSkip := Some ["x/a"] |}.

(** A target on a host that is down. *)
Definition opts8 : CheckOptions :=
  {| port := None; path := "http://down/"; recurse := Some true;
     linksToSkip := None |}.

End Site.

(** ** The command line ([cli.ts])

    The part of [main] between the parsed flags and the call of [check],
    the listener it puts on ['link'], and the exit status it ends with. *)
Module Cli.

(** [flags.skip] is a string, or an array when the flag is repeated. *)
Inductive SkipFlag :=
| skip_string (s : string)
| skip_array (l : list string).

(** The fields of [Flags] that [main] reads. *)
Record Flags := {
  flag_recurse : option bool;
  flag_skip : option SkipFlag;
  flag_format : option string;
  flag_silent : option bool
}.

(** [s.split(' ')]: the pieces between the spaces, empty ones included;
    [acc] is the piece being read. *)
Fixpoint split_space (acc s : string) : list string :=
  match s with
  | EmptyString => [acc]
  | String c rest =>
      if Ascii.eqb c " " then acc :: split_space "" rest
      else split_space (acc ++ String c "") rest
  end.

(** [x => !!x] on a string. *)
Definition nonempty (x : string) : bool := negb (String.eqb x "").

(** [const opts = { path: cli.input[0], recurse: flags.recurse }] and the
    [if (flags.skip)] block after it. *)
Definition opts (input : string) (flags : Flags) : CheckOptions :=
  let opts := {| port := None; path := input; recurse := flag_recurse flags;
                 linksToSkip := None |} in
  match flag_skip flags with
  | Some (skip_string s) =>
      if nonempty s
      then set_linksToSkip opts (List.filter nonempty (split_space "" s))
      else opts
  | Some (skip_array l) => set_linksToSkip opts l
  | None => opts
  end.

(** What the ['link'] listener does with one payload.  [chalk] only
    colours the text, so a line is kept as its colour, its label and its
    URL. *)
Inductive Colour := red | green | grey.

Record Line := {
  line_colour : Colour;
  line_label : string;
  line_url : string
}.

Inductive Heard :=
| quiet                         (* returned without printing *)
| logged (l : Line)             (* [console.log] of the line *)
| invalid_state                 (* [throw new Error('Invalid state.')] *)
| type_error.                   (* [toString] of [undefined] *)

(** A flag that is set and not empty, [false] or absent. *)
Definition truthy_bool (b : option bool) : bool := default false b.
Definition truthy_string (x : option string) : bool :=
  match x with
  | Some x => nonempty x
  | None => false
  end.

(** [log(message)]: prints unless [flags.format] is set. *)
Definition log (flags : Flags) (l : Line) : Heard :=
  if truthy_string (flag_format flags) then quiet else logged l.

(** The listener is typed for a [LinkResult] but is handed whatever was
    emitted: on the object [_fetch] returns, [link.state] is
    [undefined]. *)
Definition on_link (flags : Flags) (payload : Payload) : Heard :=
  match payload with
  | PLinkResult l =>
      if truthy_bool (flag_silent flags) && negb (is_broken l) then quiet
      else
        match state l, status l with
        | BROKEN, Some st => log flags {| line_colour := red;
                                          line_label := string_of_Z st;
                                          line_url := url l |}
        | OK, Some st => log flags {| line_colour := green;
                                      line_label := string_of_Z st;
                                      line_url := url l |}
        | SKIPPED, _ => log flags {| line_colour := grey;
                                     line_label := "SKP";
                                     line_url := url l |}
        | _, None => type_error
        end
  | PFetchResult _ =>
      if truthy_bool (flag_silent flags) then quiet else invalid_state
  end.

(** [toLowerCase] on the letters A to Z; the other characters cannot
    become a letter of [json] or [csv]. *)
Definition lower (c : ascii) : ascii :=
  let n := nat_of_ascii c in
  if ((65 <=? n) && (n <=? 90))%nat then ascii_of_nat (n + 32) else c.

Fixpoint toLowerCase (s : string) : string :=
  match s with
  | EmptyString => EmptyString
  | String c rest => String (lower c) (toLowerCase rest)
  end.

(** The status the process ends with once [check] has returned [result]:
    [main] returns after printing for the formats [json] and [csv], and
    calls [process.exit(1)] when a link is broken otherwise. *)
Definition exit_status (flags : Flags) (result : CrawlResult) : Z :=
  let format :=
    match flag_format flags with
    | Some f => if nonempty f then Some (toLowerCase f) else None
    | None => None
    end in
  match format with
  | Some f =>
      if String.eqb f "json" then 0
      else if String.eqb f "csv" then 0
      else if passed result then 0 else 1
  | None => if passed result then 0 else 1
  end.

(** A pattern without a space in it. *)
Fixpoint spaceless (x : string) : bool :=
  match x with
  | EmptyString => true
  | String c rest => negb (Ascii.eqb c " ") && spaceless rest
  end.

End Cli.

(** ** Vocabulary of the statements *)

Section Vocabulary.
Context `{Collaborators}.

(** What holds when [m] finishes from [s]: [Q] if it resolves, [E] if it
    rejects. *)
Definition post {A} (m : M A) (s : State)
    (Q : A → State → Prop) (E : Error → State → Prop) : Prop :=
  match m s with
  | Done a s' => Q a s'
  | Throw e s' => E e s'
  | OutOfFuel => True
  end.

(** The same, for a computation that must finish within its fuel. *)
Definition total {A} (m : M A) (s : State)
    (Q : A → State → Prop) (E : Error → State → Prop) : Prop :=
  match m s with
  | Done a s' => Q a s'
  | Throw e s' => E e s'
  | OutOfFuel => False
  end.

(** A web of finitely many URLs: in every world [R] allows, the transport
    leaves a world [R] allows, and the pages it serves link inside [U]. *)
Definition Bounded (U : gset string) (R : World → Prop) : Prop :=
  ∀ q w, R w →
    R (gaxios_request q w).2 ∧
    ∀ res v, (gaxios_request q w).1 = Some res →
             v ∈ getLinks (res_data res) (req_url q) → v ∈ U.

(** Some configured skip pattern compiles and matches [u]. *)
Definition Matches (o : CheckOptions) (u : string) : Prop :=
  ∃ p re, p ∈ default [] (linksToSkip o) ∧
          new_RegExp p = Some re ∧ RegExp_test re u = true.

(** Some configured skip pattern is not a regular expression. *)
Definition Malformed (o : CheckOptions) : Prop :=
  ∃ p, p ∈ default [] (linksToSkip o) ∧ new_RegExp p = None.

(** The two requests [_fetch] can make for a URL. *)
Definition first_request (u : string) (c : bool) : Request :=
  {| req_method := if c then GET else HEAD; req_url := u;
     req_responseType := if c then text else stream |}.

Definition retry_request (u : string) : Request :=
  {| req_method := GET; req_url := u; req_responseType := stream |}.

Definition is_retry (q : Request) : bool :=
  match req_method q, req_responseType q with
  | GET, stream => true
  | _, _ => false
  end.

Definition is_first (q : Request) : bool := negb (is_retry q).

(** The two results [_fetch] can return. *)
Definition fetched (u : string) (res : Response) : FetchResult :=
  {| data := res_data res; shouldRecurse := isHtml res;
     linkResult := {| url := u; status := Some (res_status res);
                      state := classify (res_status res) |} |}.

Definition unreachable (u : string) : FetchResult :=
  {| data := ""; shouldRecurse := false;
     linkResult := {| url := u; status := Some 0; state := BROKEN |} |}.

(** The state after the transport answered [qs] and left the world [w]. *)
Definition transported (s : State) (w : World) (qs : list Request) : State :=
  {| world := w; options := options s; cache := cache s;
     results := results s; emitted := emitted s;
     requests := requests s ++ qs; servers := servers s |}.

(** The URLs that are crawled with [crawl] true: the target itself and
    the children [child_crawl] accepts. *)
Definition eligible (o : CheckOptions) (u : string) : bool :=
  bool_decide (u = path o) || child_crawl o u.

(** The [LinkResult] an emitted payload carries. *)
Definition carried (p : Payload) : LinkResult :=
  match p with
  | PLinkResult r => r
  | PFetchResult f => linkResult f
  end.

Fixpoint link_payloads (es : list Event) : list Payload :=
  match es with
  | [] => []
  | link p :: es' => p :: link_payloads es'
  | pagestart _ :: es' => link_payloads es'
  end.

Fixpoint pagestarts (es : list Event) : list string :=
  match es with
  | [] => []
  | link _ :: es' => pagestarts es'
  | pagestart u :: es' => u :: pagestarts es'
  end.

(** What every state of a run satisfies, for the options [o] the crawl
    was started with. *)
Record Inv (o : CheckOptions) (s : State) : Prop := {
  inv_nodup : NoDup (url <$> results s);
  inv_cached : ∀ r, r ∈ results s → url r ∈ cache s;
  inv_links : carried <$> link_payloads (emitted s) = results s;
  inv_req_result : ∀ q, q ∈ requests s → req_url q ∈ url <$> results s;
  inv_req_unskipped : ∀ q, q ∈ requests s → ¬ Matches o (req_url q);
  inv_req_shape : ∀ q, q ∈ requests s →
    q = first_request (req_url q) (eligible o (req_url q)) ∨
    q = retry_request (req_url q);
  inv_first_nodup : NoDup (req_url <$> List.filter is_first (requests s));
  inv_retry_nodup : NoDup (req_url <$> List.filter is_retry (requests s));
  inv_res_skipped : ∀ r, r ∈ results s → Matches o (url r) →
    state r = SKIPPED ∧ status r = None;
  inv_res_fetched : ∀ r, r ∈ results s → ¬ Matches o (url r) →
    state r ≠ SKIPPED ∧ status r ≠ None ∧
    first_request (url r) (eligible o (url r)) ∈ requests s;
  inv_pagestart : ∀ u, u ∈ pagestarts (emitted s) → eligible o u = true
}.

(** Every scanned URL has its result. *)
Definition Complete (s : State) : Prop :=
  ∀ u, u ∈ cache s → u ∈ url <$> results s.

(** The calls the traversal makes: the first one on the target with
    [crawl] true, the others on children once the target is scanned. *)
Definition CallOK (o : CheckOptions) (s : State) (u : string) (c : bool) : Prop :=
  (u = path o ∧ c = true) ∨ (path o ∈ cache s ∧ c = child_crawl o u).

(** The traversal rejects only because of the skip patterns. *)
Definition BadPatterns (o : CheckOptions) (e : Error) : Prop :=
  (e = TypeError ∧ linksToSkip o = None) ∨
  (∃ p, e = SyntaxError p ∧ p ∈ default [] (linksToSkip o) ∧ new_RegExp p = None).

Definition Frame (s s' : State) : Prop :=
  cache s ⊆ cache s' ∧ options s' = options s ∧ servers s' = servers s.

Definition CrawlDone (o : CheckOptions) (s : State) (u : string)
    (rs : list LinkResult) (s' : State) : Prop :=
  Inv o s' ∧ Complete s' ∧ Frame s s' ∧ u ∈ cache s' ∧ rs = results s'.

Definition CrawlThrown (o : CheckOptions) (s : State)
    (e : Error) (s' : State) : Prop :=
  Inv o s' ∧ Frame s s' ∧ BadPatterns o e.

(** The states the traversal goes through. *)
Definition scanned (u : string) (s : State) : State :=
  {| world := world s; options := options s; cache := {[u]} ∪ cache s;
     results := results s; emitted := emitted s; requests := requests s;
     servers := servers s |}.

Definition recorded (u : string) (p : Payload) (s : State) : State :=
  {| world := world s; options := options s; cache := {[u]} ∪ cache s;
     results := results s ++ [carried p];
     emitted := emitted s ++ [link p];
     requests := requests s; servers := servers s |}.

Definition announced (u : string) (s : State) : State :=
  {| world := world s; options := options s; cache := cache s;
     results := results s; emitted := emitted s ++ [pagestart u];
     requests := requests s; servers := servers s |}.

Definition skipped (u : string) : LinkResult :=
  {| url := u; status := None; state := SKIPPED |}.

(** The state between two children of a page [u] being expanded. *)
Definition Expanding (o : CheckOptions) (s : State) (u : string) (s' : State) : Prop :=
  Inv o s' ∧ Complete s' ∧ Frame s s' ∧ u ∈ cache s' ∧ path o ∈ cache s'.

(** What [check] makes of the caller's options: the built-in pattern is
    appended, and a target that does not start with [http] is replaced by
    the address of the local server. *)
Definition normalized (o : CheckOptions) : CheckOptions :=
  set_linksToSkip o (default [] (linksToSkip o) ++ ["^mailto:"]).

Definition static_server (o : CheckOptions) (random : Z) : Server :=
  {| server_root := path o; server_port := choose_port o random |}.

Definition served (o : CheckOptions) (random : Z) : CheckOptions :=
  set_path (normalized o)
    ("http://localhost:" ++ string_of_Z (choose_port o random)).

(** The state [check] starts the traversal from. *)
Definition started (o : CheckOptions) (s : State) : State :=
  {| world := world s; options := o; cache := ∅; results := [];
     emitted := emitted s; requests := requests s; servers := servers s |}.

Definition refused (o : CheckOptions) (w : World) (s : State) : State :=
  {| world := w; options := o; cache := cache s; results := results s;
     emitted := emitted s; requests := requests s; servers := servers s |}.

Definition report_of (rs : list LinkResult) : CrawlResult :=
  {| links := rs;
     passed := (length (List.filter is_broken rs) =? 0)%nat |}.

(** How a run of [check] on a fresh checker ends. *)
Definition CheckDone (o : CheckOptions) (random : Z)
    (report : CrawlResult) (s' : State) : Prop :=
  Inv (options s') s' ∧ Complete s' ∧ path (options s') ∈ cache s' ∧
  report = report_of (results s') ∧
  if String.prefix "http" (path o)
  then options s' = normalized o ∧ servers s' = []
  else options s' = served o random ∧
       servers s' = [listening (static_server o random);
                     destroyed (static_server o random)].

Definition CheckThrown (o : CheckOptions) (random : Z)
    (e : Error) (s' : State) : Prop :=
  Inv (options s') s' ∧
  if String.prefix "http" (path o)
  then options s' = normalized o ∧ servers s' = [] ∧
       BadPatterns (normalized o) e
  else (options s' = served o random ∧
        servers s' = [listening (static_server o random)] ∧
        BadPatterns (served o random) e) ∨
       (options s' = normalized o ∧ servers s' = [] ∧
        e = ListenError (static_server o random) ∧
        cache s' = ∅ ∧ results s' = [] ∧ emitted s' = [] ∧ requests s' = []).

(** From [s] to [s'] the run only added: results, events and requests
    at the end of what was there, URLs to the set of scanned ones. *)
Definition Grows (s s' : State) : Prop :=
  results s `prefix_of` results s' ∧
  emitted s `prefix_of` emitted s' ∧
  requests s `prefix_of` requests s' ∧
  cache s ⊆ cache s' ∧
  options s' = options s ∧ servers s' = servers s.

(** The form of what a run has recorded and emitted. *)
Record Shape (s : State) : Prop := {
  shape_payloads : ∀ p, p ∈ link_payloads (emitted s) →
    (∃ u, p = PLinkResult (skipped u)) ∨ (∃ fr, p = PFetchResult fr);
  shape_results : ∀ r, r ∈ results s →
    (state r = SKIPPED ∧ status r = None) ∨
    (∃ st, status r = Some st ∧ state r = classify st);
  shape_pagestart_nodup : NoDup (pagestarts (emitted s));
  shape_pagestart_cached : ∀ u, u ∈ pagestarts (emitted s) → u ∈ cache s;
  shape_pagestart_html : ∀ u, u ∈ pagestarts (emitted s) →
    ∃ fr, link (PFetchResult fr) ∈ emitted s ∧
          url (linkResult fr) = u ∧ shouldRecurse fr = true ∧
          first_request u true ∈ requests s
}.

(** From [s] to [s'] every page that was expanded was expanded in full:
    each [pagestart] emitted since [s] belongs to a fetch result whose
    ['link'] event was emitted since [s], and every link that [getLinks]
    finds on that page is scanned in [s']. *)
Definition Handled (s s' : State) : Prop :=
  ∃ es, emitted s' = emitted s ++ es ∧ cache s ⊆ cache s' ∧
    ∀ u, u ∈ pagestarts es →
      ∃ fr, link (PFetchResult fr) ∈ es ∧ url (linkResult fr) = u ∧
            shouldRecurse fr = true ∧
            ∀ v, v ∈ getLinks (data fr) u → v ∈ cache s'.

End Vocabulary.

(** * Proofs *)

Section Proofs.
Context `{Collaborators}.

Lemma post_bind {A B} (m : M A) (k : A → M B) s Q E :
  post m s (λ a s', post (k a) s' Q E) E → post (bind m k) s Q E.
Proof. unfold post, bind. destruct (m s); auto. Qed.

Lemma post_weaken {A} (m : M A) s (Q Q' : A → State → Prop) (E E' : Error → State → Prop) :
  post m s Q E →
  (∀ a s', Q a s' → Q' a s') → (∀ e s', E e s' → E' e s') →
  post m s Q' E'.
Proof. unfold post. destruct (m s); auto. Qed.

(** *** The skip test *)

Lemma mapM_test_skip u l s :
  match mapM (test_skip u) l s with
  | Done bs s' =>
      s' = s ∧
      Forall2 (λ p b, ∃ re, new_RegExp p = Some re ∧ b = RegExp_test re u) l bs
  | Throw e s' => s' = s ∧ ∃ p, e = SyntaxError p ∧ p ∈ l ∧ new_RegExp p = None
  | OutOfFuel => False
  end.
Proof.
  induction l as [|p l IH]; simpl.
  - split; [reflexivity | constructor].
  - unfold bind, test_skip at 1.
    destruct (new_RegExp p) as [re|] eqn:Hp; simpl.
    + destruct (mapM (test_skip u) l s) as [bs s'|e s'|]; simpl.
      * destruct IH as [-> IH]. split; [reflexivity|].
        constructor; eauto.
      * destruct IH as [-> (q & -> & Hq & Hn)]. split; [reflexivity|].
        exists q. repeat split; auto. by apply list_elem_of_further.
      * assumption.
    + split; [reflexivity|]. exists p. repeat split; auto. apply list_elem_of_here.
Qed.

Lemma filter_true_nonempty u (l : list string) (bs : list bool) :
  Forall2 (λ p b, ∃ re, new_RegExp p = Some re ∧ b = RegExp_test re u) l bs →
  (0 <? length (List.filter (λ m, m) bs))%nat = true ↔
  ∃ p re, p ∈ l ∧ new_RegExp p = Some re ∧ RegExp_test re u = true.
Proof.
  induction 1 as [|p b l bs (re & Hre & Hb) _ IH]; simpl.
  - split; [discriminate|]. intros (p & re & Hp & _). by apply elem_of_nil in Hp.
  - destruct b; simpl.
    + split; [|reflexivity]. intros _. exists p, re.
      repeat split; [apply list_elem_of_here|assumption|by symmetry].
    + rewrite IH. split.
      * intros (q & re' & Hq & HP). exists q, re'.
        split; [by apply list_elem_of_further|assumption].
      * intros (q & re' & Hq & Hc & Ht). apply elem_of_cons in Hq as [->|Hq].
        -- congruence.
        -- eauto.
Qed.

Lemma compute_skips_spec o u s :
  match compute_skips o u s with
  | Done skips s' =>
      s' = s ∧ ¬ Malformed o ∧ ((0 <? length skips)%nat = true ↔ Matches o u)
  | Throw e s' =>
      s' = s ∧
      (e = TypeError ∧ linksToSkip o = None ∨
       ∃ p, e = SyntaxError p ∧ p ∈ default [] (linksToSkip o) ∧ new_RegExp p = None)
  | OutOfFuel => False
  end.
Proof.
  unfold compute_skips, Matches, Malformed.
  destruct (linksToSkip o) as [l|]; simpl.
  - unfold bind. pose proof (mapM_test_skip u l s) as Hm.
    destruct (mapM (test_skip u) l s) as [bs s'|e s'|]; simpl.
    + destruct Hm as [-> HF]. split; [reflexivity|]. split.
      * intros (p & Hp & Hn).
        apply list_elem_of_lookup in Hp as [i Hi].
        destruct (Forall2_lookup_l _ _ _ _ _ HF Hi) as (b & _ & re & Hre & _).
        congruence.
      * by apply filter_true_nonempty.
    + destruct Hm as [-> Hm]. split; [reflexivity|]. by right.
    + assumption.
  - split; [reflexivity|]. by left.
Qed.

(** *** [_fetch] *)

Lemma _fetch_unfold u c s :
  _fetch u c s =
  match gaxios_request (first_request u c) (world s) with
  | (None, w1) => Done (unreachable u) (transported s w1 [first_request u c])
  | (Some r1, w1) =>
      if res_status r1 =? 405 then
        match gaxios_request (retry_request u) w1 with
        | (None, w2) =>
            Done (unreachable u)
              (transported s w2 [first_request u c; retry_request u])
        | (Some r2, w2) =>
            Done (fetched u r2)
              (transported s w2 [first_request u c; retry_request u])
        end
      else Done (fetched u r1) (transported s w1 [first_request u c])
  end.
Proof.
  unfold _fetch, try_catch, bind, request, first_request, retry_request,
    transported, ret; simpl.
  destruct (gaxios_request _ (world s)) as [[r1|] w1]; simpl; [|reflexivity].
  destruct (res_status r1 =? 405); simpl; [|reflexivity].
  destruct (gaxios_request _ w1) as [[r2|] w2]; simpl;
    rewrite <- app_assoc; reflexivity.
Qed.

(** [_fetch] always resolves: with the result of the last response, or
    with the unreachable result. *)
Lemma _fetch_spec u c s :
  ∃ fr w qs,
    _fetch u c s = Done fr (transported s w qs) ∧
    (qs = [first_request u c] ∨ qs = [first_request u c; retry_request u]) ∧
    ((∃ res, fr = fetched u res) ∨ fr = unreachable u).
Proof.
  rewrite _fetch_unfold.
  destruct (gaxios_request _ (world s)) as [[r1|] w1].
  - destruct (res_status r1 =? 405).
    + destruct (gaxios_request _ w1) as [[r2|] w2]; eauto 10.
    + eauto 10.
  - eauto 10.
Qed.

(** *** The invariant *)

Lemma link_payloads_app es es' :
  link_payloads (es ++ es') = link_payloads es ++ link_payloads es'.
Proof. induction es as [|[p|u] es IH]; simpl; congruence. Qed.

Lemma pagestarts_app es es' :
  pagestarts (es ++ es') = pagestarts es ++ pagestarts es'.
Proof. induction es as [|[p|u] es IH]; simpl; congruence. Qed.

Lemma is_first_first u c : is_first (first_request u c) = true.
Proof. by destruct c. Qed.

Lemma is_retry_first u c : is_retry (first_request u c) = false.
Proof. by destruct c. Qed.

Lemma req_url_cached o s q : Inv o s → q ∈ requests s → req_url q ∈ cache s.
Proof.
  intros HI Hq. apply (inv_req_result _ _ HI) in Hq.
  apply list_elem_of_fmap in Hq as (r & -> & Hr). by apply (inv_cached _ _ HI).
Qed.

Lemma fresh_not_requested o s u (f : Request → bool) :
  Inv o s → u ∉ cache s → u ∉ req_url <$> List.filter f (requests s).
Proof.
  intros HI Hu Hin. apply list_elem_of_fmap in Hin as (q & -> & Hq).
  apply list_elem_of_In, filter_In in Hq as [Hq _].
  apply list_elem_of_In in Hq. apply Hu. by eapply req_url_cached.
Qed.

Lemma fresh_not_recorded o s u : Inv o s → u ∉ cache s → u ∉ url <$> results s.
Proof.
  intros HI Hu Hin. apply list_elem_of_fmap in Hin as (r & -> & Hr).
  apply Hu. by apply (inv_cached _ _ HI).
Qed.

Lemma NoDup_snoc_fresh (l : list string) u : NoDup l → u ∉ l → NoDup (l ++ [u]).
Proof.
  intros Hl Hu. apply NoDup_app. split; [assumption|]. split.
  - intros x Hx Hx'. apply list_elem_of_singleton in Hx'. by subst.
  - apply NoDup_singleton.
Qed.

Lemma Inv_initial o w opts srv :
  Inv o {| world := w; options := opts; cache := ∅; results := [];
           emitted := []; requests := []; servers := srv |}.
Proof.
  constructor; simpl; try (intros ? Hin; by apply elem_of_nil in Hin);
    try apply NoDup_nil_2; reflexivity.
Qed.

Lemma Inv_scanned o s u : Inv o s → Inv o (scanned u s).
Proof.
  intros [H1 H2 H3 H4 H5 H6 H7 H8 H9 H10 H11]. constructor; simpl; auto.
  intros r Hr. apply elem_of_union_r. by apply H2.
Qed.

Lemma Inv_announced o s u : Inv o s → eligible o u = true → Inv o (announced u s).
Proof.
  intros [H1 H2 H3 H4 H5 H6 H7 H8 H9 H10 H11] Hu. constructor; simpl; auto.
  - rewrite link_payloads_app. simpl. by rewrite app_nil_r.
  - intros v. rewrite pagestarts_app. simpl. rewrite elem_of_app.
    intros [Hv|Hv]; [by apply H11|]. apply list_elem_of_singleton in Hv. by subst.
Qed.

Lemma Inv_skipped o s u :
  Inv o s → u ∉ cache s → Matches o u →
  Inv o (recorded u (PLinkResult (skipped u)) s).
Proof.
  intros HI Hu Hm. pose proof (fresh_not_recorded _ _ _ HI Hu) as Hur.
  destruct HI as [H1 H2 H3 H4 H5 H6 H7 H8 H9 H10 H11].
  constructor; simpl; auto.
  - rewrite fmap_app. simpl. by apply NoDup_snoc_fresh.
  - intros r. rewrite elem_of_app, list_elem_of_singleton.
    intros [Hr| ->]; [apply elem_of_union_r; by apply H2|].
    apply elem_of_union_l. by apply elem_of_singleton.
  - rewrite link_payloads_app, fmap_app. simpl. by rewrite H3.
  - intros q Hq. rewrite fmap_app. apply elem_of_app. left. by apply H4.
  - intros r. rewrite elem_of_app, list_elem_of_singleton.
    intros [Hr| ->]; [by apply H9|]. by intros _.
  - intros r. rewrite elem_of_app, list_elem_of_singleton.
    intros [Hr| ->]; [by apply H10|]. simpl. intros Hn. by destruct Hn.
  - intros v. rewrite pagestarts_app. simpl. rewrite app_nil_r. apply H11.
Qed.

Lemma classify_not_skipped st : classify st ≠ SKIPPED.
Proof. unfold classify. by destruct (_ && _). Qed.

Lemma Inv_fetched o s u w qs fr :
  Inv o s → u ∉ cache s → ¬ Matches o u →
  (qs = [first_request u (eligible o u)] ∨
   qs = [first_request u (eligible o u); retry_request u]) →
  ((∃ res, fr = fetched u res) ∨ fr = unreachable u) →
  Inv o (recorded u (PFetchResult fr) (transported s w qs)).
Proof.
  intros HI Hu Hm Hqs Hfr.
  pose proof (fresh_not_recorded _ _ _ HI Hu) as Hur.
  pose proof (fresh_not_requested _ _ _ is_first HI Hu) as Huf.
  pose proof (fresh_not_requested _ _ _ is_retry HI Hu) as Hut.
  assert (url (linkResult fr) = u) as Hurl
    by (destruct Hfr as [[res ->]| ->]; reflexivity).
  assert (state (linkResult fr) ≠ SKIPPED) as Hstate.
  { destruct Hfr as [[res ->]| ->]; simpl; [apply classify_not_skipped|done]. }
  assert (status (linkResult fr) ≠ None) as Hstatus
    by (destruct Hfr as [[res ->]| ->]; done).
  assert (∀ q, q ∈ qs → req_url q = u ∧
            (q = first_request u (eligible o u) ∨ q = retry_request u)) as Hin.
  { intros q Hq. destruct Hqs as [-> | ->].
    - apply list_elem_of_singleton in Hq as ->. auto.
    - apply elem_of_cons in Hq as [-> | Hq]; [auto|].
      apply list_elem_of_singleton in Hq as ->. auto. }
  assert (first_request u (eligible o u) ∈ qs) as Hfirst
    by (destruct Hqs as [-> | ->]; apply list_elem_of_here).
  assert (List.filter is_first qs = [first_request u (eligible o u)]) as Hff.
  { destruct Hqs as [-> | ->]; simpl; by rewrite is_first_first. }
  assert (List.filter is_retry qs = [] ∨
          List.filter is_retry qs = [retry_request u]) as Hft.
  { destruct Hqs as [-> | ->]; simpl; rewrite is_retry_first; auto. }
  destruct HI as [H1 H2 H3 H4 H5 H6 H7 H8 H9 H10 H11].
  constructor; simpl.
  - rewrite fmap_app. simpl. rewrite Hurl. by apply NoDup_snoc_fresh.
  - intros r. rewrite elem_of_app, list_elem_of_singleton.
    intros [Hr| ->]; [apply elem_of_union_r; by apply H2|].
    apply elem_of_union_l. by apply elem_of_singleton.
  - rewrite link_payloads_app, fmap_app. simpl. by rewrite H3.
  - intros q. rewrite fmap_app, !elem_of_app. simpl.
    intros [Hq|Hq]; [left; by apply H4|].
    right. apply list_elem_of_singleton. destruct (Hin q Hq) as [-> _]. done.
  - intros q. rewrite elem_of_app.
    intros [Hq|Hq]; [by apply H5|]. by destruct (Hin q Hq) as [-> _].
  - intros q. rewrite elem_of_app.
    intros [Hq|Hq]; [by apply H6|].
    destruct (Hin q Hq) as [Hq1 [Hq2|Hq2]]; rewrite Hq1; auto.
  - rewrite List.filter_app, fmap_app, Hff. simpl. by apply NoDup_snoc_fresh.
  - rewrite List.filter_app, fmap_app.
    destruct Hft as [-> | ->]; simpl; [by rewrite app_nil_r|].
    by apply NoDup_snoc_fresh.
  - intros r. rewrite elem_of_app, list_elem_of_singleton.
    intros [Hr| ->]; [by apply H9|]. rewrite Hurl. by intros ?.
  - intros r. rewrite elem_of_app, list_elem_of_singleton.
    intros [Hr| ->] Hn.
    + destruct (H10 r Hr Hn) as (? & ? & ?). repeat split; auto.
      apply elem_of_app. by left.
    + repeat split; auto. rewrite Hurl. apply elem_of_app. by right.
  - intros v. rewrite pagestarts_app. simpl. rewrite app_nil_r. apply H11.
Qed.

Lemma CallOK_eligible o s u c : CallOK o s u c → u ∉ cache s → c = eligible o u.
Proof.
  unfold eligible. intros [[-> ->]|[Hp ->]] Hu.
  - by rewrite bool_decide_eq_true_2.
  - rewrite bool_decide_eq_false_2; [done|]. intros ->. by apply Hu.
Qed.

Lemma CallOK_true o s u : CallOK o s u true → eligible o u = true.
Proof.
  unfold eligible. intros [[-> _]|[_ <-]].
  - by rewrite bool_decide_eq_true_2.
  - apply orb_true_r.
Qed.

Lemma forEach_post {A} (l : list A) (f : A → M unit) (P : State → Prop) E :
  (∀ a s, P s → post (f a) s (λ _, P) E) →
  ∀ s, P s → post (forEach l f) s (λ _, P) E.
Proof.
  intros Hf. induction l as [|a l IH]; intros s Hs; simpl.
  - exact Hs.
  - apply post_bind. eapply post_weaken; [apply Hf, Hs| |]; eauto.
Qed.

Lemma Frame_refl s : Frame s s.
Proof. by repeat split. Qed.

Lemma Frame_trans s1 s2 s3 : Frame s1 s2 → Frame s2 s3 → Frame s1 s3.
Proof.
  intros (? & ? & ?) (? & ? & ?). split_and!; [by etrans|congruence..].
Qed.

Lemma CrawlDone_recorded o s s1 u p :
  Inv o (recorded u p s1) → Complete s →
  cache s1 = cache s → results s1 = results s →
  options s1 = options s → servers s1 = servers s →
  url (carried p) = u →
  CrawlDone o s u (results (recorded u p s1)) (recorded u p s1).
Proof.
  intros HI HC Hc Hr Ho Hs Hu. unfold CrawlDone, Frame, Complete; simpl.
  split_and!; auto.
  - intros v Hv. rewrite fmap_app, elem_of_app. simpl.
    apply elem_of_union in Hv as [Hv|Hv].
    + right. apply elem_of_singleton in Hv. subst. apply list_elem_of_here.
    + left. rewrite Hr. apply HC. by rewrite <- Hc.
  - rewrite Hc. apply union_subseteq_r.
  - apply elem_of_union_l. by apply elem_of_singleton.
Qed.

Lemma crawl_post o fuel : ∀ u c s,
  Inv o s → Complete s → CallOK o s u c →
  post (_filterCachedFilterSkippedThenCrawlUrlAndChildren fuel o u c) s
       (CrawlDone o s u) (CrawlThrown o s).
Proof.
  induction fuel as [|fuel IH]; intros u c s HI HC Hcall; [exact I|].
  cbn [_filterCachedFilterSkippedThenCrawlUrlAndChildren].
  apply post_bind. unfold post at 1, cache_has.
  destruct (bool_decide_reflect (u ∈ cache s)) as [Hin|Hnin].
  - unfold post, get_results, CrawlDone. split_and!; auto using Frame_refl.
  - apply post_bind. unfold post at 1, cache_add. fold (scanned u s).
    apply post_bind. unfold post at 1.
    pose proof (compute_skips_spec o u (scanned u s)) as Hsk.
    destruct (compute_skips o u (scanned u s)) as [skips s1|e s1|].
    + destruct Hsk as (-> & Hwf & Hsk).
      destruct (0 <? length skips)%nat eqn:Hlen.
      * assert (Matches o u) as Hm by (by apply Hsk).
        change (CrawlDone o s u
                  (results (recorded u (PLinkResult (skipped u)) s))
                  (recorded u (PLinkResult (skipped u)) s)).
        apply CrawlDone_recorded; auto. by apply Inv_skipped.
      * assert (¬ Matches o u) as Hm.
        { intros Hm. apply Hsk in Hm. discriminate. }
        destruct (_fetch_spec u c (scanned u s)) as (fr & w & qs & Hf & Hqs & Hfr).
        apply post_bind. unfold post at 1. rewrite Hf.
        rewrite (CallOK_eligible _ _ _ _ Hcall Hnin) in Hqs.
        pose proof (Inv_fetched o s u w qs fr HI Hnin Hm Hqs Hfr) as HI3.
        assert (url (linkResult fr) = u) as Hurl
          by (destruct Hfr as [[res ->]| ->]; reflexivity).
        pose proof (CrawlDone_recorded o s (transported s w qs) u
                      (PFetchResult fr) HI3 HC eq_refl eq_refl eq_refl eq_refl Hurl)
          as HD3.
        set (s3 := recorded u (PFetchResult fr) (transported s w qs)) in *.
        apply post_bind. unfold post at 1, results_push.
        apply post_bind. unfold post at 1, emit.
        match goal with |- post _ ?st _ _ => change st with s3 end.
        apply post_bind.
        assert (path o ∈ cache s3) as Hroot.
        { destruct Hcall as [[-> _]|[Hp _]]; simpl;
            [apply elem_of_union_l; by apply elem_of_singleton
            |by apply elem_of_union_r]. }
        destruct (c && shouldRecurse fr) eqn:Hexp.
        -- apply andb_true_iff in Hexp as [-> Hhtml].
           apply post_bind. unfold post at 1, emit. fold (announced u s3).
           assert (Expanding o s u (announced u s3)) as Hexp.
           { destruct HD3 as (_ & ? & ? & ? & _). unfold Expanding.
             split_and!; auto.
             apply Inv_announced; [assumption|]. by eapply CallOK_true. }
           eapply post_weaken.
           ++ apply (forEach_post _ _ (Expanding o s u) (CrawlThrown o s));
                [|exact Hexp].
              intros a s' (HI' & HC' & HF' & Hu' & Hp').
              apply post_bind.
              eapply post_weaken; [apply (IH a _ s' HI' HC'); by right| |].
              ** intros rs s'' (HI'' & HC'' & HF'' & Ha'' & _).
                 unfold post, ret, Expanding. split_and!; auto.
                 --- by eapply Frame_trans.
                 --- destruct HF'' as [Hsub _]. by apply Hsub.
                 --- destruct HF'' as [Hsub _]. by apply Hsub.
              ** intros e s'' (HI'' & HF'' & He). unfold CrawlThrown.
                 split_and!; auto. by eapply Frame_trans.
           ++ intros _ s' (HI' & HC' & HF' & Hu' & Hp').
              unfold post, get_results, CrawlDone. split_and!; auto.
           ++ auto.
        -- unfold post, ret, get_results. destruct HD3 as (? & ? & ? & ? & _).
           unfold CrawlDone. split_and!; auto.
    + destruct Hsk as (-> & Hsk). unfold CrawlThrown, Frame. simpl.
      split_and!; auto; [by apply Inv_scanned|apply union_subseteq_r].
    + exact I.
Qed.

(** *** [check] *)

Lemma check_unfold fuel random s :
  check fuel random s =
  let o := options s in
  if String.prefix "http" (path o) then
    match _filterCachedFilterSkippedThenCrawlUrlAndChildren fuel
            (normalized o) (path o) true (started (normalized o) s) with
    | Done rs s' => Done (report_of rs) s'
    | Throw e s' => Throw e s'
    | OutOfFuel => OutOfFuel
    end
  else
    let srv := static_server o random in
    match http_listen srv (world s) with
    | (true, w) =>
        match _filterCachedFilterSkippedThenCrawlUrlAndChildren fuel
                (served o random) (path (served o random)) true
                (started (served o random) (log_server (listening srv) w s)) with
        | Done rs s' => Done (report_of rs) (log_server (destroyed srv) (world s') s')
        | Throw e s' => Throw e s'
        | OutOfFuel => OutOfFuel
        end
    | (false, w) => Throw (ListenError srv) (refused (normalized o) w s)
    end.
Proof.
  unfold check, bind, get_options, put_options, new_crawl, ret; simpl.
  destruct (String.prefix "http" (path (options s))); simpl.
  - fold (normalized (options s)).
    match goal with |- context [_filterCachedFilterSkippedThenCrawlUrlAndChildren
                                  fuel _ _ _ ?st] =>
      change st with (started (normalized (options s)) s) end.
    destruct (_filterCachedFilterSkippedThenCrawlUrlAndChildren _ _ _ _ _);
      reflexivity.
  - unfold _startStaticWebServer, static_server; simpl.
    destruct (http_listen _ (world s)) as [[|] w]; simpl; [|reflexivity].
    match goal with |- context [_filterCachedFilterSkippedThenCrawlUrlAndChildren
                                  fuel ?o _ _ ?st] =>
      destruct (_filterCachedFilterSkippedThenCrawlUrlAndChildren fuel o
                  (path o) true st)
    end; reflexivity.
Qed.

Lemma Inv_log_server o op w s : Inv o s → Inv o (log_server op w s).
Proof. intros [H1 H2 H3 H4 H5 H6 H7 H8 H9 H10 H11]. by constructor. Qed.

Lemma Complete_started o s : Complete (started o s).
Proof. intros u Hu. simpl in Hu. by apply not_elem_of_empty in Hu. Qed.

Lemma check_run fuel random w o :
  post (check fuel random) (initial w o) (CheckDone o random) (CheckThrown o random).
Proof.
  unfold post. rewrite check_unfold. simpl.
  unfold CheckDone, CheckThrown.
  destruct (String.prefix "http" (path o)) eqn:Hurl.
  - pose proof (crawl_post (normalized o) fuel (path o) true
                  (started (normalized o) (initial w o))
                  (Inv_initial _ _ _ _) (Complete_started _ _)
                  (or_introl (conj eq_refl eq_refl))) as Hc.
    unfold post in Hc.
    destruct (_filterCachedFilterSkippedThenCrawlUrlAndChildren _ _ _ _ _)
      as [rs s'|e s'|]; [| |exact I].
    + destruct Hc as (HI & HC & (_ & Ho & Hs) & Hp & ->).
      simpl in Ho, Hs. rewrite Ho. split_and!; auto.
    + destruct Hc as (HI & (_ & Ho & Hs) & He).
      simpl in Ho, Hs. rewrite Ho. split_and!; auto.
  - destruct (http_listen (static_server o random) w) as [[|] w'] eqn:Hl.
    + pose proof (crawl_post (served o random) fuel (path (served o random)) true
                    (started (served o random)
                       (log_server (listening (static_server o random)) w'
                          (initial w o)))
                    (Inv_initial _ _ _ _) (Complete_started _ _)
                    (or_introl (conj eq_refl eq_refl))) as Hc.
      unfold post in Hc.
      destruct (_filterCachedFilterSkippedThenCrawlUrlAndChildren _ _ _ _ _)
        as [rs s'|e s'|]; [| |exact I].
      * destruct Hc as (HI & HC & (_ & Ho & Hs) & Hp & ->).
        simpl in Ho, Hs. simpl. rewrite Ho, Hs. split_and!; auto.
        by apply Inv_log_server.
      * destruct Hc as (HI & (_ & Ho & Hs) & He).
        simpl in Ho, Hs. rewrite Ho. split; [assumption|]. left. auto.
    + simpl. split; [apply Inv_initial|]. right. split_and!; reflexivity.
Qed.

Lemma check_done fuel random w o report s' :
  check fuel random (initial w o) = Done report s' → CheckDone o random report s'.
Proof. intros Hrun. pose proof (check_run fuel random w o) as Hc. unfold post in Hc. by rewrite Hrun in Hc. Qed.


(** X14: one ['link'] event per result, in the order of the results,
    each carrying its result. *)
Lemma link_events_carry_results fuel random w o report s' :
  check fuel random (initial w o) = Done report s' →
  carried <$> link_payloads (emitted s') = links report.
Proof.
  intros Hrun. destruct (check_done _ _ _ _ _ _ Hrun) as (HI & _ & _ & -> & _).
  apply (inv_links _ _ HI).
Qed.

Lemma no_broken_spec rs :
  (length (List.filter is_broken rs) =? 0)%nat = true ↔
  ∀ r, r ∈ rs → state r ≠ BROKEN.
Proof.
  induction rs as [|r rs IH]; simpl.
  - split; [|reflexivity]. intros _ r Hr. by apply elem_of_nil in Hr.
  - unfold is_broken at 1. destruct (state r) eqn:Hr; simpl.
    + rewrite IH. split.
      * intros Hrs r' [->|Hr']%elem_of_cons; [congruence|by apply Hrs].
      * intros Hrs r' Hr'. apply Hrs. by apply list_elem_of_further.
    + split; [discriminate|]. intros Hrs. exfalso.
      by apply (Hrs r); [apply list_elem_of_here|].
    + rewrite IH. split.
      * intros Hrs r' [->|Hr']%elem_of_cons; [congruence|by apply Hrs].
      * intros Hrs r' Hr'. apply Hrs. by apply list_elem_of_further.
Qed.

Lemma check_report fuel random s report s' :
  check fuel random s = Done report s' → ∃ rs, report = report_of rs.
Proof.
  rewrite check_unfold. simpl.
  destruct (String.prefix "http" (path (options s))).
  - destruct (_filterCachedFilterSkippedThenCrawlUrlAndChildren _ _ _ _ _);
      intros [= <- <-] || discriminate. eauto.
  - destruct (http_listen _ _) as [[|] w]; [|discriminate].
    destruct (_filterCachedFilterSkippedThenCrawlUrlAndChildren _ _ _ _ _);
      intros [= <- <-] || discriminate. eauto.
Qed.

(** C2: whenever [check] returns a report, its [passed] field is true
    exactly when no [LinkResult] of [links] has state [BROKEN]. *)
Theorem passed_iff_no_broken fuel random s report s' :
  check fuel random s = Done report s' →
  (passed report = true ↔ ∀ r, r ∈ links report → state r ≠ BROKEN).
Proof.
  intros Hrun. destruct (check_report _ _ _ _ _ Hrun) as [rs ->]. simpl.
  apply no_broken_spec.
Qed.

(** C10: when the first response of [_fetch] has status 405, whatever
    the method of the first request, exactly one more request is made, a
    GET, and the state, status and HTML classification of the result
    are those of the response to that retry. *)
Theorem retry_once_with_GET_on_405 u shouldCrawl s r1 w1 :
  gaxios_request (first_request u shouldCrawl) (world s) = (Some r1, w1) →
  res_status r1 = 405 →
  ∃ fr s',
    _fetch u shouldCrawl s = Done fr s' ∧
    requests s' =
      requests s ++
      [ {| req_method := if shouldCrawl then GET else HEAD; req_url := u;
           req_responseType := if shouldCrawl then text else stream |};
        {| req_method := GET; req_url := u; req_responseType := stream |} ] ∧
    (∀ r2 w2, gaxios_request (retry_request u) w1 = (Some r2, w2) →
       state (linkResult fr) = classify (res_status r2) ∧
       status (linkResult fr) = Some (res_status r2) ∧
       shouldRecurse fr = isHtml r2 ∧
       data fr = res_data r2).
Proof.
  intros H1 H405. rewrite _fetch_unfold, H1, H405. simpl.
  destruct (gaxios_request (retry_request u) w1) as [[r2|] w2];
    eexists _, _; (split; [reflexivity|]); simpl; split_and!; auto.
  - by intros ? ? [= <- <-].
  - intros ? ? [=].
Qed.

(** *** Termination on a finite web *)

Lemma total_bind {A B} (m : M A) (k : A → M B) s Q E :
  total m s (λ a s', total (k a) s' Q E) E → total (bind m k) s Q E.
Proof. unfold total, bind. destruct (m s); auto. Qed.

Lemma total_weaken {A} (m : M A) s (Q Q' : A → State → Prop) (E E' : Error → State → Prop) :
  total m s Q E →
  (∀ a s', Q a s' → Q' a s') → (∀ e s', E e s' → E' e s') →
  total m s Q' E'.
Proof. unfold total. destruct (m s); auto. Qed.

Lemma forEach_total {A} (l : list A) (f : A → M unit) (P : State → Prop) E :
  (∀ a s, a ∈ l → P s → total (f a) s (λ _, P) E) →
  ∀ s, P s → total (forEach l f) s (λ _, P) E.
Proof.
  induction l as [|a l IH]; intros Hf s Hs; simpl.
  - exact Hs.
  - apply total_bind. eapply total_weaken.
    + apply Hf; [apply list_elem_of_here|exact Hs].
    + intros ? s' Hs'. apply IH; [|exact Hs'].
      intros b s'' Hb. apply Hf. by apply list_elem_of_further.
    + auto.
Qed.

Lemma unscanned_shrinks (U C : gset string) u :
  u ∈ U → u ∉ C → (size (U ∖ ({[u]} ∪ C)) < size (U ∖ C))%nat.
Proof.
  intros HU HC. apply subset_size. split.
  - intros v. rewrite !elem_of_difference, elem_of_union. tauto.
  - intros Hsub. specialize (Hsub u). rewrite !elem_of_difference in Hsub.
    destruct Hsub as [_ Hn]; [by split|].
    apply Hn. apply elem_of_union_l. by apply elem_of_singleton.
Qed.

Lemma unscanned_mono (U C C' : gset string) :
  C ⊆ C' → (size (U ∖ C') ≤ size (U ∖ C))%nat.
Proof.
  intros Hsub. apply subseteq_size. intros v.
  rewrite !elem_of_difference. intros [? Hn]. split; [assumption|].
  intros Hv. apply Hn. by apply Hsub.
Qed.

Lemma _fetch_bounded U R u c s :
  Bounded U R → R (world s) →
  ∃ fr w qs,
    _fetch u c s = Done fr (transported s w qs) ∧ R w ∧
    (shouldRecurse fr = true → ∀ v, v ∈ getLinks (data fr) u → v ∈ U).
Proof.
  intros HB HR. rewrite _fetch_unfold.
  destruct (HB (first_request u c) (world s) HR) as [HR1 HL1].
  destruct (gaxios_request (first_request u c) (world s)) as [[r1|] w1];
    simpl in HR1, HL1.
  - destruct (res_status r1 =? 405).
    + destruct (HB (retry_request u) w1 HR1) as [HR2 HL2].
      destruct (gaxios_request (retry_request u) w1) as [[r2|] w2];
        simpl in HR2, HL2; eexists _, _, _; (split; [reflexivity|]);
        (split; [assumption|]); simpl.
      * intros _ v. by apply HL2.
      * discriminate.
    + eexists _, _, _. split; [reflexivity|]. split; [assumption|]. simpl.
      intros _ v. apply HL1. by destruct c.
  - eexists _, _, _. split; [reflexivity|]. split; [assumption|]. simpl.
    discriminate.
Qed.

(** With one unit of fuel per URL of the web still to scan, and one to
    spare, the traversal finishes. *)
Lemma crawl_total U R o :
  Bounded U R →
  ∀ fuel u c s, u ∈ U → R (world s) → (size (U ∖ cache s) < fuel)%nat →
  let grown s' := cache s ⊆ cache s' ∧ R (world s') in
  total (_filterCachedFilterSkippedThenCrawlUrlAndChildren fuel o u c) s
    (λ _, grown) (λ _, grown).
Proof.
  intros HB. induction fuel as [|fuel IH]; intros u c s Hu HR Hfuel grown; [lia|].
  cbn [_filterCachedFilterSkippedThenCrawlUrlAndChildren].
  apply total_bind. unfold total at 1, cache_has.
  destruct (bool_decide_reflect (u ∈ cache s)) as [Hin|Hnin].
  - unfold total, get_results, grown. auto.
  - assert (cache s ⊆ {[u]} ∪ cache s) as Hgrow
      by (intros v Hv; by apply elem_of_union_r).
    apply total_bind. unfold total at 1, cache_add. fold (scanned u s).
    apply total_bind. unfold total at 1.
    pose proof (compute_skips_spec o u (scanned u s)) as Hsk.
    destruct (compute_skips o u (scanned u s)) as [skips s1|e s1|];
      [|by destruct Hsk as [-> _]|assumption].
    destruct Hsk as (-> & _ & _).
    destruct (0 <? length skips)%nat; [by split|].
    destruct (_fetch_bounded U R u c (scanned u s) HB HR)
      as (fr & w & qs & Hf & HRw & Hl).
    apply total_bind. unfold total at 1. rewrite Hf.
    apply total_bind. unfold total at 1, results_push.
    apply total_bind. unfold total at 1, emit.
    apply total_bind.
    destruct (c && shouldRecurse fr) eqn:Hexp; [|by split].
    apply andb_true_iff in Hexp as [_ Hhtml].
    apply total_bind. unfold total at 1, emit.
    eapply total_weaken.
    + apply (forEach_total _ _
               (λ s', {[u]} ∪ cache s ⊆ cache s' ∧ R (world s'))
               (λ _, grown)); [|by split].
      intros a s' Ha [Hs' HR']. apply total_bind.
      eapply total_weaken.
      * apply IH; [by eapply Hl|assumption|].
        pose proof (unscanned_shrinks U (cache s) u Hu Hnin).
        pose proof (unscanned_mono U _ _ Hs'). lia.
      * intros ? s'' [Hs'' HR'']. unfold total, ret. split; [by etrans|assumption].
      * intros ? s'' [Hs'' HR'']. split; [|assumption].
        etrans; [exact Hgrow|]. by etrans.
    + intros ? s' [Hs' HR']. unfold total, get_results.
      split; [by etrans|assumption].
    + auto.
Qed.

Lemma check_returns fuel random w o U R :
  Bounded U R → R w →
  ¬ Malformed (normalized o) →
  String.prefix "http" (path o) = true →
  path o ∈ U → (size U < fuel)%nat →
  ∃ report s', check fuel random (initial w o) = Done report s'.
Proof.
  intros HB HR Hwf Hurl Hroot Hfuel.
  pose proof (check_run fuel random w o) as Hpost. unfold post in Hpost.
  rewrite check_unfold in *. cbv zeta in *.
  change (options (initial w o)) with o in *. rewrite Hurl in *.
  pose proof (crawl_total U R (normalized o) HB fuel (path o) true
                (started (normalized o) (initial w o)) Hroot HR) as Ht.
  unfold total in Ht.
  destruct (_filterCachedFilterSkippedThenCrawlUrlAndChildren _ _ _ _ _)
    as [rs s'|e s'|].
  - eauto.
  - exfalso. destruct Hpost as (_ & Hb). unfold CheckThrown in Hb.
    rewrite Hurl in Hb. destruct Hb as (_ & _ & [[_ [=]]|(p & _ & Hp & Hn)]).
    apply Hwf. by exists p.
  - exfalso. apply Ht. simpl. rewrite difference_empty_L. exact Hfuel.
Qed.

Lemma classify_spec st :
  (200 ≤ st < 300 → classify st = OK) ∧ (¬ 200 ≤ st < 300 → classify st = BROKEN).
Proof.
  unfold classify.
  destruct (200 <=? st) eqn:Hlo, (st <? 300) eqn:Hhi; simpl; split; intros;
    try reflexivity; lia.
Qed.


(** C7, as the code has it: when the target does not start with [http]
    and [check] returns its report, the local server was started once and
    destroyed exactly once, as the last thing done; when the traversal
    rejects, [check] rejects with the server still listening; when the
    server cannot listen, none was started. *)
Theorem server_destroyed_once_on_return fuel random w o :
  String.prefix "http" (path o) = false →
  let srv := static_server o random in
  post (check fuel random) (initial w o)
    (λ _ s', servers s' = [listening srv; destroyed srv])
    (λ e s', (e = ListenError srv ∧ servers s' = []) ∨
             (e ≠ ListenError srv ∧ servers s' = [listening srv])).
Proof.
  intros Hurl srv. eapply post_weaken; [apply check_run| |].
  - intros report s' (_ & _ & _ & _ & Hs). rewrite Hurl in Hs. by destruct Hs.
  - intros e s' (_ & Hs). rewrite Hurl in Hs.
    destruct Hs as [(_ & Hs & He)|(_ & Hs & He & _)]; [right|left; auto].
    split; [|assumption]. by destruct He as [[-> _]|(p & -> & _)].
Qed.

Lemma post_Done {A} (m : M A) s Q E a s' :
  post m s Q E → m s = Done a s' → Q a s'.
Proof. unfold post. intros Hp Heq. by rewrite Heq in Hp. Qed.


Lemma Malformed_normalized o : Malformed o → Malformed (normalized o).
Proof.
  intros (p & Hp & Hn). exists p. split; [|assumption].
  simpl. apply elem_of_app. by left.
Qed.

Lemma crawl_malformed fuel o u c s :
  Malformed o → u ∉ cache s →
  ∃ e, _filterCachedFilterSkippedThenCrawlUrlAndChildren (S fuel) o u c s
         = Throw e (scanned u s) ∧ BadPatterns o e.
Proof.
  intros Hm Hu. cbn [_filterCachedFilterSkippedThenCrawlUrlAndChildren].
  unfold bind at 1, cache_has. rewrite bool_decide_eq_false_2 by assumption.
  unfold bind at 1, cache_add. fold (scanned u s). unfold bind at 1.
  pose proof (compute_skips_spec o u (scanned u s)) as Hsk.
  destruct (compute_skips o u (scanned u s)) as [skips s1|e s1|].
  - by destruct Hsk as (_ & Hwf & _).
  - destruct Hsk as (-> & He). eauto.
  - contradiction.
Qed.

(** C9, as the code has it: the patterns are compiled while the first
    URL is being handled.  With a malformed pattern in [linksToSkip] the
    run is rejected, with no request made, no event emitted and no result
    recorded; by then the local server, if the target needed one, has been
    started and the target has been put in the set of scanned URLs. *)
Theorem malformed_pattern_rejects_at_first_url fuel random w o :
  Malformed o →
  ∃ e s',
    check (S fuel) random (initial w o) = Throw e s' ∧
    requests s' = [] ∧ emitted s' = [] ∧ results s' = [] ∧
    ((∃ p, e = SyntaxError p ∧
           p ∈ default [] (linksToSkip o) ++ ["^mailto:"] ∧
           new_RegExp p = None) ∧
     cache s' = {[path (options s')]} ∧
     (String.prefix "http" (path o) = false →
      servers s' = [listening (static_server o random)])
     ∨
     e = ListenError (static_server o random) ∧
     String.prefix "http" (path o) = false ∧ cache s' = ∅ ∧ servers s' = []).
Proof.
  intros Hm. rewrite check_unfold. cbv zeta.
  change (options (initial w o)) with o. change (world (initial w o)) with w.
  destruct (String.prefix "http" (path o)) eqn:Hurl.
  - destruct (crawl_malformed fuel (normalized o) (path o) true
                (started (normalized o) (initial w o))
                (Malformed_normalized _ Hm)) as (e & -> & He).
    { simpl. apply not_elem_of_empty. }
    eexists _, _. split; [reflexivity|]. simpl. split_and!; auto.
    left. split_and!; [|apply union_empty_r_L|discriminate].
    destruct He as [[_ [=]]|(p & -> & Hp & Hn)]. eauto.
  - destruct (http_listen (static_server o random) w) as [[|] w'] eqn:Hl.
    + destruct (crawl_malformed fuel (served o random) (path (served o random))
                  true
                  (started (served o random)
                     (log_server (listening (static_server o random)) w'
                        (initial w o)))
                  (Malformed_normalized _ Hm)) as (e & -> & He).
      { simpl. apply not_elem_of_empty. }
      eexists _, _. split; [reflexivity|]. simpl. split_and!; auto.
      left. split_and!; [|apply union_empty_r_L|auto].
      destruct He as [[_ [=]]|(p & -> & Hp & Hn)]. eauto.
    + eexists _, _. split; [reflexivity|]. simpl. split_and!; auto.
Qed.

(** C1, as the code has it: when [check] returns, every URL met during
    the run has exactly one [LinkResult] in [links], and [_fetch] ran at
    most once for it: the transport got at most one first request for the
    URL, and at most one retry, the GET that follows a 405. *)
Theorem one_result_and_one_fetch_per_url fuel random w o report s' :
  check fuel random (initial w o) = Done report s' →
  NoDup (url <$> links report) ∧
  (∀ u, u ∈ cache s' ↔ u ∈ url <$> links report) ∧
  (∀ q, q ∈ requests s' → req_url q ∈ url <$> links report) ∧
  NoDup (req_url <$> List.filter is_first (requests s')) ∧
  NoDup (req_url <$> List.filter is_retry (requests s')).
Proof.
  intros Hrun. destruct (check_done _ _ _ _ _ _ Hrun) as (HI & HC & _ & -> & _).
  simpl. split_and!.
  - apply (inv_nodup _ _ HI).
  - intros u. split; [apply HC|].
    intros (r & -> & Hr)%list_elem_of_fmap. by apply (inv_cached _ _ HI).
  - apply (inv_req_result _ _ HI).
  - apply (inv_first_nodup _ _ HI).
  - apply (inv_retry_nodup _ _ HI).
Qed.


Lemma eligible_iff o u :
  eligible o u = true ↔ u = path o ∨ child_crawl o u = true.
Proof.
  unfold eligible. rewrite orb_true_iff, bool_decide_eq_true. reflexivity.
Qed.

Lemma child_crawl_iff o u :
  child_crawl o u = true ↔
  recurse o = Some true ∧ String.prefix (path o) u = true.
Proof.
  unfold child_crawl. rewrite andb_true_iff.
  destruct (recurse o) as [[|]|]; simpl; intuition congruence.
Qed.

Lemma pagestarts_link es p : pagestarts (es ++ [link p]) = pagestarts es.
Proof. rewrite pagestarts_app. simpl. apply app_nil_r. Qed.

(** A call with [crawl] false handles its own URL and nothing else. *)
Lemma crawl_leaf fuel o u s :
  match _filterCachedFilterSkippedThenCrawlUrlAndChildren (S fuel) o u false s with
  | Done _ s' =>
      pagestarts (emitted s') = pagestarts (emitted s) ∧
      (∀ v, v ∈ cache s' → v = u ∨ v ∈ cache s) ∧
      (u ∈ cache s → s' = s) ∧
      (u ∉ cache s → Matches o u →
         requests s' = requests s ∧ results s' = results s ++ [skipped u]) ∧
      (u ∉ cache s → ¬ Matches o u →
         (requests s' = requests s ++ [first_request u false] ∨
          requests s' = requests s ++ [first_request u false; retry_request u]) ∧
         ∃ r, results s' = results s ++ [r] ∧ url r = u ∧ state r ≠ SKIPPED)
  | Throw e s' => BadPatterns o e
  | OutOfFuel => False
  end.
Proof.
  cbn [_filterCachedFilterSkippedThenCrawlUrlAndChildren].
  unfold bind at 1, cache_has.
  destruct (bool_decide_reflect (u ∈ cache s)) as [Hin|Hnin].
  - unfold get_results. split_and!; auto; intros; contradiction.
  - unfold bind at 1, cache_add. fold (scanned u s). unfold bind at 1.
    pose proof (compute_skips_spec o u (scanned u s)) as Hsk.
    destruct (compute_skips o u (scanned u s)) as [skips s1|e s1|];
      [|by destruct Hsk|assumption].
    destruct Hsk as (-> & _ & Hsk).
    destruct (0 <? length skips)%nat eqn:Hlen.
    + assert (Matches o u) as Hm by (by apply Hsk).
      simpl. split_and!; auto; try (intros; contradiction).
      * apply pagestarts_link.
      * intros v [->%elem_of_singleton|Hv]%elem_of_union; auto.
    + assert (¬ Matches o u) as Hm.
      { intros Hm. apply Hsk in Hm. discriminate. }
      destruct (_fetch_spec u false (scanned u s)) as (fr & w & qs & Hf & Hqs & Hfr).
      unfold bind at 1. rewrite Hf. simpl.
      split_and!; auto; try (intros; contradiction).
      * apply pagestarts_link.
      * intros v [->%elem_of_singleton|Hv]%elem_of_union; auto.
      * intros _ _. split; [by destruct Hqs as [-> | ->]; auto|].
        exists (linkResult fr). split; [reflexivity|].
        destruct Hfr as [[res ->]| ->]; simpl;
          (split; [reflexivity|]); [apply classify_not_skipped|discriminate].
Qed.

(** ** More about the traversal *)

(** *** A relation kept by every step is kept by the traversal *)

Section Traversal.

Variable o : CheckOptions.
Variable Rel : State → State → Prop.
Hypothesis Rel_refl : ∀ s, Rel s s.
Hypothesis Rel_trans : ∀ s1 s2 s3, Rel s1 s2 → Rel s2 s3 → Rel s1 s3.
Hypothesis Rel_scanned : ∀ s u, u ∉ cache s → Rel s (scanned u s).
Hypothesis Rel_skipped : ∀ s u,
  u ∉ cache s → Matches o u → Rel s (recorded u (PLinkResult (skipped u)) s).
Hypothesis Rel_fetched : ∀ s u c w qs fr,
  u ∉ cache s → ¬ Matches o u →
  _fetch u c (scanned u s) = Done fr (transported (scanned u s) w qs) →
  Rel s (recorded u (PFetchResult fr) (transported s w qs)).
Hypothesis Rel_expanded : ∀ s u w qs fr,
  u ∉ cache s → ¬ Matches o u →
  _fetch u true (scanned u s) = Done fr (transported (scanned u s) w qs) →
  shouldRecurse fr = true →
  Rel s (announced u (recorded u (PFetchResult fr) (transported s w qs))).

Lemma children_rel fuel (l : list string) :
  (∀ u c s,
     post (_filterCachedFilterSkippedThenCrawlUrlAndChildren fuel o u c) s
       (λ _, Rel s) (λ _, Rel s)) →
  ∀ s0 s, Rel s0 s →
  post (forEach l
          (λ u, bind (_filterCachedFilterSkippedThenCrawlUrlAndChildren
                        fuel o u (child_crawl o u)) (λ _, ret tt)))
       s (λ _, Rel s0) (λ _, Rel s0).
Proof.
  intros IH s0. apply forEach_post.
  intros a s Hs. apply post_bind.
  eapply post_weaken; [apply IH| |].
  - intros ? s' Hs'. unfold post, ret. by eapply Rel_trans.
  - intros ? s' Hs'. by eapply Rel_trans.
Qed.

Lemma crawl_rel fuel : ∀ u c s,
  post (_filterCachedFilterSkippedThenCrawlUrlAndChildren fuel o u c) s
       (λ _, Rel s) (λ _, Rel s).
Proof.
  induction fuel as [|fuel IH]; intros u c s; [exact I|].
  cbn [_filterCachedFilterSkippedThenCrawlUrlAndChildren].
  apply post_bind. unfold post at 1, cache_has.
  destruct (bool_decide_reflect (u ∈ cache s)) as [Hin|Hnin].
  - unfold post, get_results. apply Rel_refl.
  - apply post_bind. unfold post at 1, cache_add. fold (scanned u s).
    apply post_bind. unfold post at 1.
    pose proof (compute_skips_spec o u (scanned u s)) as Hsk.
    destruct (compute_skips o u (scanned u s)) as [skips s1|e s1|];
      [|destruct Hsk as [-> _]; by apply Rel_scanned|exact I].
    destruct Hsk as (-> & _ & Hsk).
    destruct (0 <? length skips)%nat eqn:Hlen.
    + apply (Rel_skipped s u Hnin). by apply Hsk.
    + assert (¬ Matches o u) as Hm.
      { intros Hm. apply Hsk in Hm. discriminate. }
      destruct (_fetch_spec u c (scanned u s)) as (fr & w & qs & Hf & _).
      apply post_bind. unfold post at 1. rewrite Hf.
      apply post_bind. unfold post at 1, results_push.
      apply post_bind. unfold post at 1, emit.
      match goal with |- post _ ?st _ _ =>
        change st with (recorded u (PFetchResult fr) (transported s w qs)) end.
      apply post_bind.
      destruct (c && shouldRecurse fr) eqn:Hexp.
      * apply andb_true_iff in Hexp as [-> Hhtml].
        apply post_bind. unfold post at 1, emit.
        fold (announced u (recorded u (PFetchResult fr) (transported s w qs))).
        eapply post_weaken.
        -- apply (children_rel fuel _ IH s). by eapply Rel_expanded.
        -- intros ? s' Hs'. exact Hs'.
        -- auto.
      * unfold post, ret, get_results. by eapply Rel_fetched.
Qed.

End Traversal.

(** *** The traversal only adds *)

Lemma Grows_refl s : Grows s s.
Proof. unfold Grows. split_and!; reflexivity. Qed.

Lemma Grows_trans s1 s2 s3 : Grows s1 s2 → Grows s2 s3 → Grows s1 s3.
Proof.
  intros (? & ? & ? & ? & ? & ?) (? & ? & ? & ? & ? & ?).
  unfold Grows. split_and!; try (by etrans); congruence.
Qed.

Lemma crawl_grows o fuel u c s :
  post (_filterCachedFilterSkippedThenCrawlUrlAndChildren fuel o u c) s
       (λ _, Grows s) (λ _, Grows s).
Proof.
  apply (crawl_rel o Grows Grows_refl Grows_trans).
  - intros s0 u0 _. unfold Grows; simpl. split_and!; try reflexivity.
    apply union_subseteq_r.
  - intros s0 u0 _ _. unfold Grows; simpl. split_and!; try reflexivity;
      [by eexists..|apply union_subseteq_r].
  - intros s0 u0 c0 w qs fr _ _ _. unfold Grows; simpl.
    split_and!; try reflexivity; [by eexists..|apply union_subseteq_r].
  - intros s0 u0 w qs fr _ _ _ _. unfold Grows; simpl.
    split_and!; try reflexivity; [by eexists| |by eexists|apply union_subseteq_r].
    exists [link (PFetchResult fr); pagestart u0]. by rewrite <- app_assoc.
Qed.

(** *** The form of results, payloads and page starts *)

Lemma _fetch_inv u c s fr w qs :
  _fetch u c s = Done fr (transported s w qs) →
  (qs = [first_request u c] ∨ qs = [first_request u c; retry_request u]) ∧
  ((∃ res, fr = fetched u res) ∨ fr = unreachable u).
Proof.
  intros Hf. destruct (_fetch_spec u c s) as (fr' & w' & qs' & Hf' & Hqs & Hfr).
  rewrite Hf in Hf'. injection Hf' as -> _ Hq.
  apply app_inv_head in Hq as ->. auto.
Qed.

Lemma fetched_result_shape u fr :
  (∃ res, fr = fetched u res) ∨ fr = unreachable u →
  url (linkResult fr) = u ∧
  ∃ st, status (linkResult fr) = Some st ∧ state (linkResult fr) = classify st.
Proof. intros [[res ->]| ->]; (split; [reflexivity|]); eexists; by split. Qed.

Lemma Shape_initial w opts srv es rq :
  pagestarts es = [] → link_payloads es = [] →
  Shape {| world := w; options := opts; cache := ∅; results := [];
           emitted := es; requests := rq; servers := srv |}.
Proof.
  intros Hp Hl. constructor; simpl; rewrite ?Hp, ?Hl;
    try (intros ? Hin; by apply elem_of_nil in Hin). apply NoDup_nil_2.
Qed.

Lemma Shape_scanned s u : Shape s → Shape (scanned u s).
Proof.
  intros [H1 H2 H3 H4 H5]. constructor; simpl; auto.
  intros v Hv. apply elem_of_union_r. by apply H4.
Qed.

Lemma Shape_recorded s s1 u p :
  Shape s →
  emitted s1 = emitted s → results s1 = results s → cache s1 = cache s →
  requests s `prefix_of` requests s1 →
  ((∃ v, p = PLinkResult (skipped v)) ∨
   (∃ fr, p = PFetchResult fr ∧
          ∃ st, status (linkResult fr) = Some st ∧
                state (linkResult fr) = classify st)) →
  Shape (recorded u p s1).
Proof.
  intros [H1 H2 H3 H4 H5] He Hr Hc [k Hq] Hp.
  constructor; simpl; rewrite ?He, ?Hr, ?Hc, ?pagestarts_link; auto.
  - intros q. rewrite link_payloads_app, elem_of_app. simpl.
    intros [Hq'|Hq']; [by apply H1|].
    apply list_elem_of_singleton in Hq' as ->.
    destruct Hp as [Hp|(fr & -> & _)]; eauto.
  - intros r. rewrite elem_of_app, list_elem_of_singleton.
    intros [Hr'| ->]; [by apply H2|].
    destruct Hp as [[v ->]|(fr & -> & Hst)]; simpl; auto.
  - intros v Hv. apply elem_of_union_r. by apply H4.
  - intros v Hv. destruct (H5 v Hv) as (fr & Hfr & Hu & Hh & Hq').
    exists fr. split_and!; auto.
    + apply elem_of_app. by left.
    + rewrite Hq. apply elem_of_app. by left.
Qed.

Lemma Shape_announced s u fr :
  Shape s → u ∉ pagestarts (emitted s) → u ∈ cache s →
  link (PFetchResult fr) ∈ emitted s → url (linkResult fr) = u →
  shouldRecurse fr = true → first_request u true ∈ requests s →
  Shape (announced u s).
Proof.
  intros [H1 H2 H3 H4 H5] Hfresh Hc Hl Hu Hh Hq.
  constructor; simpl; auto.
  - intros p. rewrite link_payloads_app. simpl. rewrite app_nil_r. apply H1.
  - rewrite pagestarts_app. simpl. by apply NoDup_snoc_fresh.
  - intros v. rewrite pagestarts_app. simpl. rewrite elem_of_app.
    intros [Hv|Hv]; [by apply H4|]. apply list_elem_of_singleton in Hv. by subst.
  - intros v. rewrite pagestarts_app. simpl. rewrite elem_of_app.
    intros [Hv|Hv].
    + destruct (H5 v Hv) as (fr' & Hfr & Hu' & Hh' & Hq').
      exists fr'. split_and!; auto. apply elem_of_app. by left.
    + apply list_elem_of_singleton in Hv. subst v.
      exists fr. split_and!; auto. apply elem_of_app. by left.
Qed.

Lemma crawl_shape o fuel u c s :
  post (_filterCachedFilterSkippedThenCrawlUrlAndChildren fuel o u c) s
       (λ _ s', Shape s → Shape s') (λ _ s', Shape s → Shape s').
Proof.
  apply (crawl_rel o (λ s s', Shape s → Shape s')); auto.
  - intros s0 u0 _. apply Shape_scanned.
  - intros s0 u0 _ _ HS. apply (Shape_recorded s0 s0); eauto.
  - intros s0 u0 c0 w qs fr _ _ Hf HS.
    destruct (_fetch_inv _ _ _ _ _ _ Hf) as [_ Hfr].
    destruct (fetched_result_shape _ _ Hfr) as [_ Hst].
    apply (Shape_recorded s0 (transported s0 w qs)); eauto.
    simpl. by eexists.
  - intros s0 u0 w qs fr Hnin _ Hf Hh HS.
    destruct (_fetch_inv _ _ _ _ _ _ Hf) as [Hqs Hfr].
    destruct (fetched_result_shape _ _ Hfr) as [Hu Hst].
    apply (Shape_announced _ _ fr); auto.
    + apply (Shape_recorded s0 (transported s0 w qs)); eauto.
      simpl. by eexists.
    + simpl. rewrite pagestarts_link. intros Hin.
      apply Hnin. by apply (shape_pagestart_cached _ HS).
    + simpl. apply elem_of_union_l. by apply elem_of_singleton.
    + simpl. apply elem_of_app. right. apply list_elem_of_here.
    + simpl. apply elem_of_app. right.
      destruct Hqs as [-> | ->]; apply list_elem_of_here.
Qed.

Lemma Shape_log_server op w s : Shape s → Shape (log_server op w s).
Proof. intros [H1 H2 H3 H4 H5]. by constructor. Qed.

Lemma check_shape fuel random w o :
  post (check fuel random) (initial w o) (λ _, Shape) (λ _, Shape).
Proof.
  unfold post. rewrite check_unfold. cbv zeta.
  change (options (initial w o)) with o. change (world (initial w o)) with w.
  destruct (String.prefix "http" (path o)).
  - pose proof (crawl_shape (normalized o) fuel (path o) true
                  (started (normalized o) (initial w o))) as Hc.
    unfold post in Hc.
    destruct (_filterCachedFilterSkippedThenCrawlUrlAndChildren _ _ _ _ _);
      try exact I; apply Hc; by apply Shape_initial.
  - destruct (http_listen (static_server o random) w) as [[|] w'].
    + pose proof (crawl_shape (served o random) fuel (path (served o random)) true
                    (started (served o random)
                       (log_server (listening (static_server o random)) w'
                          (initial w o)))) as Hc.
      unfold post in Hc.
      destruct (_filterCachedFilterSkippedThenCrawlUrlAndChildren _ _ _ _ _);
        try exact I; [apply Shape_log_server|]; apply Hc; by apply Shape_initial.
    + by apply Shape_initial.
Qed.

(** *** [isHtml] *)

Lemma append_cons c (a b : string) :
  (String c a ++ b)%string = String c (a ++ b)%string.
Proof. reflexivity. Qed.

Lemma append_nil (b : string) : ("" ++ b)%string = b.
Proof. reflexivity. Qed.

Lemma prefix_iff_append n h :
  String.prefix n h = true ↔ ∃ b, h = (n ++ b)%string.
Proof.
  revert h. induction n as [|c n IH]; intros h.
  - split; [intros _; by exists h|by destruct h].
  - destruct h as [|d h]; simpl;
      [split; [discriminate|intros [b Hb]; by rewrite append_cons in Hb]|].
    destruct (ascii_dec c d) as [->|Hne].
    + rewrite IH. split; intros [b Hb]; exists b;
        rewrite append_cons in *; congruence.
    + split; [discriminate|]. intros [b Hb]. rewrite append_cons in Hb.
      congruence.
Qed.

Lemma includes_iff_substring n h :
  includes n h = true ↔ ∃ a b, h = (a ++ n ++ b)%string.
Proof.
  induction h as [|d h IH]; cbn [includes];
    rewrite orb_true_iff, prefix_iff_append.
  - split.
    + intros [[b Hb]|[=]]. by exists "", b.
    + intros ([|? a] & b & Hab); [left; by exists b|].
      by rewrite append_cons in Hab.
  - rewrite IH. split.
    + intros [[b Hb]|(a & b & ->)]; [by exists "", b|by exists (String d a), b].
    + intros ([|c a] & b & Hab); [left; by exists b|].
      right. exists a, b. rewrite append_cons in Hab. congruence.
Qed.

(** X1: [isHtml] answers true exactly when the response has a
    [content-type] header and [text/html] occurs somewhere in its value;
    a response without the header is not HTML. *)
Theorem isHtml_iff_content_type_contains response :
  isHtml response = true ↔
  ∃ contentType a b,
    res_headers response !! "content-type" = Some contentType ∧
    contentType = (a ++ "text/html" ++ b)%string.
Proof.
  unfold isHtml.
  destruct (res_headers response !! "content-type") as [ct|]; simpl.
  - rewrite includes_iff_substring. split.
    + intros (a & b & ->). eauto.
    + intros (ct' & a & b & [= <-] & ->). eauto.
  - split; [discriminate|]. intros (ct' & a & b & [=] & _).
Qed.

(** *** Consequences for a run of [check] *)

(** X2: whatever a call of the traversal does, it only adds: the results,
    the emitted events and the transport requests it started with are a
    prefix of those it ends with, no scanned URL is forgotten, and the
    options object and the servers are left alone. *)
Theorem traversal_only_appends o fuel u c s :
  post (_filterCachedFilterSkippedThenCrawlUrlAndChildren fuel o u c) s
    (λ _ s',
       results s `prefix_of` results s' ∧ emitted s `prefix_of` emitted s' ∧
       requests s `prefix_of` requests s' ∧ cache s ⊆ cache s' ∧
       options s' = options s ∧ servers s' = servers s)
    (λ _ s',
       results s `prefix_of` results s' ∧ emitted s `prefix_of` emitted s' ∧
       requests s `prefix_of` requests s' ∧ cache s ⊆ cache s' ∧
       options s' = options s ∧ servers s' = servers s).
Proof. apply crawl_grows. Qed.

(** X3: a page gets at most one [pagestart], and only a page that was
    requested with GET and whose result said to recurse (its response was
    HTML) gets one, whether the run returns or rejects. *)
Theorem pagestart_once_per_html_page fuel random w o :
  let expanded (s' : State) :=
    NoDup (pagestarts (emitted s')) ∧
    ∀ u, u ∈ pagestarts (emitted s') →
      ∃ fr, link (PFetchResult fr) ∈ emitted s' ∧
            url (linkResult fr) = u ∧ shouldRecurse fr = true ∧
            {| req_method := GET; req_url := u; req_responseType := text |}
              ∈ requests s' in
  post (check fuel random) (initial w o) (λ _, expanded) (λ _, expanded).
Proof.
  intros expanded. eapply post_weaken; [apply check_shape| |];
    intros ? s' HS; (split; [apply (shape_pagestart_nodup _ HS)|]);
    apply (shape_pagestart_html _ HS).
Qed.

Lemma classify_OK_iff st : classify st = OK ↔ 200 ≤ st < 300.
Proof.
  destruct (classify_spec st) as [Hin Hout]. split; [|exact Hin].
  intros HOK. destruct (decide (200 ≤ st < 300)) as [|Hn]; [assumption|].
  rewrite (Hout Hn) in HOK. discriminate.
Qed.

(** X4: in a report, a result is [SKIPPED] exactly when it has no
    status, and it is [OK] exactly when it has a status in [200,300);
    every other result is [BROKEN] and carries a status (0 for a URL that
    could not be reached). *)
Theorem result_state_follows_status fuel random w o report s' :
  check fuel random (initial w o) = Done report s' →
  ∀ r, r ∈ links report →
    (state r = SKIPPED ↔ status r = None) ∧
    (state r = OK ↔ ∃ st, status r = Some st ∧ 200 ≤ st < 300) ∧
    (state r = BROKEN ↔ ∃ st, status r = Some st ∧ ¬ 200 ≤ st < 300).
Proof.
  intros Hrun r Hr.
  destruct (check_done _ _ _ _ _ _ Hrun) as (_ & _ & _ & -> & _).
  pose proof (post_Done _ _ _ _ _ _ (check_shape fuel random w o) Hrun) as HS.
  destruct (shape_results _ HS r Hr) as [[Hst Hs]|(st & Hs & Hst)];
    rewrite Hst, Hs.
  - split_and!; split; try done; by intros (? & [=] & _).
  - pose proof (classify_not_skipped st).
    pose proof (classify_OK_iff st) as HOK.
    split_and!.
    + split; [done|discriminate].
    + rewrite HOK. split; [eauto|]. by intros (? & [= <-] & ?).
    + split.
      * intros HB. exists st. split; [reflexivity|].
        intros Hin. apply HOK in Hin. congruence.
      * intros (? & [= <-] & Hn). by apply classify_spec.
Qed.

(** X5: with a target that starts with [http], [check] never starts a
    server and leaves [path] as it was, however the run ends. *)
Theorem url_target_starts_no_server fuel random w o :
  String.prefix "http" (path o) = true →
  post (check fuel random) (initial w o)
    (λ _ s', servers s' = [] ∧ path (options s') = path o)
    (λ _ s', servers s' = [] ∧ path (options s') = path o).
Proof.
  intros Hurl. eapply post_weaken; [apply check_run| |].
  - intros report s' (_ & _ & _ & _ & Ho). rewrite Hurl in Ho.
    by destruct Ho as [-> ->].
  - intros e s' (_ & Ho). rewrite Hurl in Ho. by destruct Ho as (-> & -> & _).
Qed.

(** X6: when the local server cannot listen, [check] rejects at once,
    for any fuel: nothing was requested, emitted or recorded and no server
    is left, but the built-in pattern is already in the caller's
    [linksToSkip]; [path] is untouched. *)
Theorem listen_failure_rejects_before_traversal fuel random w o :
  String.prefix "http" (path o) = false →
  (http_listen (static_server o random) w).1 = false →
  ∃ s',
    check fuel random (initial w o) = Throw (ListenError (static_server o random)) s' ∧
    requests s' = [] ∧ emitted s' = [] ∧ results s' = [] ∧ servers s' = [] ∧
    path (options s') = path o ∧
    linksToSkip (options s') = Some (default [] (linksToSkip o) ++ ["^mailto:"]).
Proof.
  intros Hurl Hl. rewrite check_unfold. cbv zeta.
  change (options (initial w o)) with o. change (world (initial w o)) with w.
  rewrite Hurl. destruct (http_listen (static_server o random) w) as [ok w'].
  simpl in Hl. subst ok. eexists. split; [reflexivity|]. by split_and!.
Qed.

(** *** The first step of a call *)

Lemma crawl_first_step o fuel u c s :
  u ∉ cache s →
  post (_filterCachedFilterSkippedThenCrawlUrlAndChildren (S fuel) o u c) s
    (λ _ s',
       (Matches o u ∧ s' = recorded u (PLinkResult (skipped u)) s) ∨
       (¬ Matches o u ∧ ∃ fr w qs,
          _fetch u c (scanned u s) = Done fr (transported (scanned u s) w qs) ∧
          if c && shouldRecurse fr
          then Grows (announced u (recorded u (PFetchResult fr)
                                     (transported s w qs))) s'
          else s' = recorded u (PFetchResult fr) (transported s w qs)))
    (λ _ _, True).
Proof.
  intros Hnin. cbn [_filterCachedFilterSkippedThenCrawlUrlAndChildren].
  apply post_bind. unfold post at 1, cache_has.
  rewrite bool_decide_eq_false_2 by assumption.
  apply post_bind. unfold post at 1, cache_add. fold (scanned u s).
  apply post_bind. unfold post at 1.
  pose proof (compute_skips_spec o u (scanned u s)) as Hsk.
  destruct (compute_skips o u (scanned u s)) as [skips s1|e s1|]; try exact I.
  destruct Hsk as (-> & _ & Hsk).
  destruct (0 <? length skips)%nat eqn:Hlen.
  - left. split; [by apply Hsk|reflexivity].
  - assert (¬ Matches o u) as Hm.
    { intros Hm. apply Hsk in Hm. discriminate. }
    destruct (_fetch_spec u c (scanned u s)) as (fr & w & qs & Hf & _).
    apply post_bind. unfold post at 1. rewrite Hf.
    apply post_bind. unfold post at 1, results_push.
    apply post_bind. unfold post at 1, emit.
    match goal with |- post _ ?st _ _ =>
      change st with (recorded u (PFetchResult fr) (transported s w qs)) end.
    apply post_bind.
    destruct (c && shouldRecurse fr) eqn:Hexp.
    + apply post_bind. unfold post at 1, emit.
      fold (announced u (recorded u (PFetchResult fr) (transported s w qs))).
      eapply post_weaken.
      * apply (children_rel o Grows Grows_trans fuel _
                 (crawl_grows o fuel)
                 (announced u (recorded u (PFetchResult fr) (transported s w qs)))).
        apply Grows_refl.
      * intros ? s' Hs'. unfold post, get_results. right.
        split; [assumption|]. exists fr, w, qs. rewrite Hexp. by split.
      * auto.
    + unfold post, ret, get_results. right.
      split; [assumption|]. exists fr, w, qs. rewrite Hexp. by split.
Qed.

Lemma compute_skips_done o u s :
  linksToSkip o ≠ None → ¬ Malformed o →
  ∃ skips, compute_skips o u s = Done skips s ∧
           ((0 <? length skips)%nat = true ↔ Matches o u).
Proof.
  intros Hsome Hwf. pose proof (compute_skips_spec o u s) as Hsk.
  destruct (compute_skips o u s) as [skips s1|e s1|].
  - destruct Hsk as (-> & _ & Hsk). eauto.
  - destruct Hsk as (_ & [[_ Hn]|(p & _ & Hp & Hn)]); [done|].
    exfalso. apply Hwf. by exists p.
  - contradiction.
Qed.

Lemma crawl_skip_step o fuel u c s :
  linksToSkip o ≠ None → ¬ Malformed o → u ∉ cache s → Matches o u →
  _filterCachedFilterSkippedThenCrawlUrlAndChildren (S fuel) o u c s =
  Done (results s ++ [skipped u]) (recorded u (PLinkResult (skipped u)) s).
Proof.
  intros Hsome Hwf Hnin Hm.
  cbn [_filterCachedFilterSkippedThenCrawlUrlAndChildren].
  unfold bind at 1, cache_has. rewrite bool_decide_eq_false_2 by assumption.
  unfold bind at 1, cache_add. fold (scanned u s). unfold bind at 1.
  destruct (compute_skips_done o u (scanned u s) Hsome Hwf) as (skips & -> & Hsk).
  apply Hsk in Hm. rewrite Hm. reflexivity.
Qed.

Lemma crawl_unreachable_step o fuel u c s w1 :
  linksToSkip o ≠ None → ¬ Malformed o → u ∉ cache s → ¬ Matches o u →
  gaxios_request (first_request u c) (world s) = (None, w1) →
  _filterCachedFilterSkippedThenCrawlUrlAndChildren (S fuel) o u c s =
  Done (results s ++ [linkResult (unreachable u)])
    (recorded u (PFetchResult (unreachable u))
       (transported s w1 [first_request u c])).
Proof.
  intros Hsome Hwf Hnin Hm Hreq.
  cbn [_filterCachedFilterSkippedThenCrawlUrlAndChildren].
  unfold bind at 1, cache_has. rewrite bool_decide_eq_false_2 by assumption.
  unfold bind at 1, cache_add. fold (scanned u s). unfold bind at 1.
  destruct (compute_skips_done o u (scanned u s) Hsome Hwf) as (skips & -> & Hsk).
  destruct (0 <? length skips)%nat; [exfalso; by apply Hm, Hsk|].
  unfold bind at 1. rewrite _fetch_unfold.
  change (world (scanned u s)) with (world s). rewrite Hreq.
  simpl. rewrite andb_false_r. reflexivity.
Qed.

Lemma check_traversal fuel random w o report s' :
  check fuel random (initial w o) = Done report s' →
  ∃ s0 rs s'',
    _filterCachedFilterSkippedThenCrawlUrlAndChildren
      fuel (options s') (path (options s')) true s0 = Done rs s'' ∧
    cache s0 = ∅ ∧ results s0 = [] ∧ emitted s0 = [] ∧ requests s0 = [] ∧
    results s' = results s'' ∧ emitted s' = emitted s'' ∧
    requests s' = requests s'' ∧ cache s' = cache s''.
Proof.
  rewrite check_unfold. cbv zeta.
  change (options (initial w o)) with o. change (world (initial w o)) with w.
  destruct (String.prefix "http" (path o)).
  - pose proof (crawl_grows (normalized o) fuel (path o) true
                  (started (normalized o) (initial w o))) as Hg.
    unfold post in Hg.
    destruct (_filterCachedFilterSkippedThenCrawlUrlAndChildren _ _ _ _ _)
      as [rs s''|e s''|] eqn:Hc; intros [= <- <-] || discriminate.
    destruct Hg as (_ & _ & _ & _ & Ho & _). simpl in Ho. rewrite Ho.
    eexists _, _, _. split; [exact Hc|]. by split_and!.
  - destruct (http_listen (static_server o random) w) as [[|] w']; [|discriminate].
    pose proof (crawl_grows (served o random) fuel (path (served o random)) true
                  (started (served o random)
                     (log_server (listening (static_server o random)) w'
                        (initial w o)))) as Hg.
    unfold post in Hg.
    destruct (_filterCachedFilterSkippedThenCrawlUrlAndChildren _ _ _ _ _)
      as [rs s''|e s''|] eqn:Hc; intros [= <- <-] || discriminate.
    destruct Hg as (_ & _ & _ & _ & Ho & _). simpl in Ho. simpl. rewrite Ho.
    eexists _, _, _. split; [exact Hc|]. by split_and!.
Qed.

(** X7: a report is never empty, and its first link is the target (the
    address of the local server when the target was a directory). *)
Theorem target_is_first_link fuel random w o report s' :
  check fuel random (initial w o) = Done report s' →
  ∃ r rest, links report = r :: rest ∧ url r = path (options s').
Proof.
  intros Hrun.
  destruct (check_done _ _ _ _ _ _ Hrun) as (_ & _ & _ & -> & _). simpl.
  destruct (check_traversal _ _ _ _ _ _ Hrun)
    as (s0 & rs & s'' & Hc & Hc0 & Hr0 & _ & _ & -> & _).
  destruct fuel as [|fuel]; [discriminate|].
  assert (path (options s') ∉ cache s0) as Hnin
    by (rewrite Hc0; apply not_elem_of_empty).
  pose proof (crawl_first_step (options s') fuel _ true s0 Hnin) as Hstep.
  unfold post in Hstep. rewrite Hc in Hstep.
  destruct Hstep as [[_ ->]|(_ & fr & w1 & qs & Hf & Hrest)].
  - simpl. rewrite Hr0. by eexists _, _.
  - destruct (_fetch_inv _ _ _ _ _ _ Hf) as [_ Hfr].
    destruct (fetched_result_shape _ _ Hfr) as [Hu _].
    destruct (true && shouldRecurse fr).
    + destruct Hrest as ([k Hk] & _). simpl in Hk. rewrite Hk, Hr0.
      by eexists _, _.
    + subst s''. simpl. rewrite Hr0. by eexists _, _.
Qed.

(** X8: a page is expanded because of its content type, not its status:
    when a URL handled with [crawl] true answers with an HTML response
    of any status other than 405, its result is recorded, its ['link']
    event is emitted and its [pagestart] follows at once. *)
Theorem html_page_expanded_whatever_status o fuel u s r1 w1 :
  u ∉ cache s → ¬ Matches o u →
  gaxios_request (first_request u true) (world s) = (Some r1, w1) →
  res_status r1 ≠ 405 → isHtml r1 = true →
  post (_filterCachedFilterSkippedThenCrawlUrlAndChildren (S fuel) o u true) s
    (λ _ s',
       (results s ++ [ {| url := u; status := Some (res_status r1);
                          state := classify (res_status r1) |} ])
         `prefix_of` results s' ∧
       (emitted s ++ [link (PFetchResult (fetched u r1)); pagestart u])
         `prefix_of` emitted s')
    (λ _ _, True).
Proof.
  intros Hnin Hm Hreq H405 Hhtml.
  eapply post_weaken; [by apply crawl_first_step| |auto].
  intros ? s' [[Hm' _]|(_ & fr & w & qs & Hf & Hrest)]; [done|].
  rewrite _fetch_unfold in Hf.
  change (world (scanned u s)) with (world s) in Hf. rewrite Hreq in Hf.
  apply Z.eqb_neq in H405. rewrite H405 in Hf. injection Hf as <- _ _.
  simpl in Hrest. rewrite Hhtml in Hrest.
  destruct Hrest as (Hr & He & _). simpl in Hr, He. split; [exact Hr|].
  by rewrite <- app_assoc in He.
Qed.

Lemma normalized_some o : linksToSkip (normalized o) ≠ None.
Proof. discriminate. Qed.

(** X9: when the target itself matches a skip pattern, the report is
    the one [SKIPPED] link, it passes, and the transport was never
    asked. *)
Theorem skipped_target_report fuel random w o :
  String.prefix "http" (path o) = true →
  ¬ Malformed (normalized o) → Matches (normalized o) (path o) →
  ∃ s',
    check (S fuel) random (initial w o) =
      Done {| passed := true;
              links := [ {| url := path o; status := None; state := SKIPPED |} ] |}
           s' ∧
    requests s' = [] ∧
    emitted s' =
      [link (PLinkResult {| url := path o; status := None; state := SKIPPED |})].
Proof.
  intros Hurl Hwf Hm. rewrite check_unfold. cbv zeta.
  change (options (initial w o)) with o. rewrite Hurl.
  rewrite (crawl_skip_step (normalized o) fuel (path o) true _
             (normalized_some o) Hwf); [|apply not_elem_of_empty|assumption].
  eexists. split; [reflexivity|]. by split.
Qed.

(** X10: when the target cannot be reached, the report is the one
    [BROKEN] link with status 0, it does not pass, one GET was made and no
    page was expanded. *)
Theorem unreachable_target_report fuel random w o w1 :
  String.prefix "http" (path o) = true →
  ¬ Malformed (normalized o) → ¬ Matches (normalized o) (path o) →
  gaxios_request
    {| req_method := GET; req_url := path o; req_responseType := text |} w
    = (None, w1) →
  ∃ s',
    check (S fuel) random (initial w o) =
      Done {| passed := false;
              links := [ {| url := path o; status := Some 0; state := BROKEN |} ] |}
           s' ∧
    requests s' =
      [ {| req_method := GET; req_url := path o; req_responseType := text |} ] ∧
    pagestarts (emitted s') = [].
Proof.
  intros Hurl Hwf Hm Hreq. rewrite check_unfold. cbv zeta.
  change (options (initial w o)) with o. rewrite Hurl.
  rewrite (crawl_unreachable_step (normalized o) fuel (path o) true _ w1
             (normalized_some o) Hwf); [|apply not_elem_of_empty|assumption..].
  eexists. split; [reflexivity|]. by split.
Qed.

Lemma NoDup_all_equal (l : list string) x :
  NoDup l → (∀ y, y ∈ l → y = x) → l = [] ∨ l = [x].
Proof.
  intros Hnd Hall. destruct l as [|a [|b l]]; [by left| |].
  - right. f_equal. apply Hall, list_elem_of_here.
  - exfalso. apply NoDup_cons in Hnd as [Hnin _]. apply Hnin.
    rewrite (Hall a), (Hall b);
      [apply list_elem_of_here|apply list_elem_of_further, list_elem_of_here
      |apply list_elem_of_here].
Qed.

(** X11: without [recurse], only the target page is expanded: it is the
    only URL that can get a [pagestart], and every other URL is asked
    with HEAD, the GET retry after a 405 apart. *)
Theorem without_recurse_only_target_expanded fuel random w o report s' :
  recurse o ≠ Some true →
  check fuel random (initial w o) = Done report s' →
  (pagestarts (emitted s') = [] ∨
   pagestarts (emitted s') = [path (options s')]) ∧
  (∀ q, q ∈ requests s' → req_url q ≠ path (options s') →
     q = {| req_method := HEAD; req_url := req_url q; req_responseType := stream |} ∨
     q = {| req_method := GET; req_url := req_url q; req_responseType := stream |}).
Proof.
  intros Hrec Hrun.
  destruct (check_done _ _ _ _ _ _ Hrun) as (HI & _ & _ & _ & Ho).
  pose proof (post_Done _ _ _ _ _ _ (check_shape fuel random w o) Hrun) as HS.
  assert (recurse (options s') = recurse o) as Hr.
  { destruct (String.prefix "http" (path o)); by destruct Ho as [-> _]. }
  assert (∀ u, child_crawl (options s') u = false) as Hchild.
  { intros u. unfold child_crawl. rewrite Hr.
    by destruct (recurse o) as [[|]|]. }
  assert (∀ u, u ≠ path (options s') → eligible (options s') u = false) as Hel.
  { intros u Hu. unfold eligible. rewrite Hchild.
    by rewrite bool_decide_eq_false_2. }
  split.
  - apply NoDup_all_equal; [apply (shape_pagestart_nodup _ HS)|].
    intros u Hu. apply (inv_pagestart _ _ HI) in Hu.
    apply eligible_iff in Hu as [Hu|Hu]; [assumption|].
    rewrite Hchild in Hu. discriminate.
  - intros q Hq Hne. destruct (inv_req_shape _ _ HI q Hq) as [Hs|Hs].
    + left. rewrite Hs at 1. by rewrite (Hel _ Hne).
    + right. exact Hs.
Qed.

Lemma served_is_url o random :
  String.prefix "http" (path (served o random)) = true.
Proof. reflexivity. Qed.

(** X12: [check] is not made to be called twice with one options
    object.  After a run on a directory, the object holds the address of
    the server that run destroyed, so a second run starts no server, and
    it appends the built-in pattern once more. *)
Theorem second_check_on_the_same_options
    fuel random w o report s1 fuel' random' w' :
  String.prefix "http" (path o) = false →
  check fuel random (initial w o) = Done report s1 →
  let again (s2 : State) :=
    servers s2 = [] ∧
    path (options s2) = path (options s1) ∧
    path (options s2) ≠ path o ∧
    linksToSkip (options s2) =
      Some (default [] (linksToSkip o) ++ ["^mailto:"; "^mailto:"]) in
  post (check fuel' random') (initial w' (options s1)) (λ _, again) (λ _, again).
Proof.
  intros Hdir Hrun again.
  destruct (check_done _ _ _ _ _ _ Hrun) as (_ & _ & _ & _ & Ho).
  rewrite Hdir in Ho. destruct Ho as [Ho _].
  assert (path (options s1) ≠ path o) as Hne.
  { rewrite Ho. intros Heq. rewrite <- Heq in Hdir.
    by rewrite served_is_url in Hdir. }
  assert (linksToSkip (normalized (options s1)) =
          Some (default [] (linksToSkip o) ++ ["^mailto:"; "^mailto:"])) as Hl.
  { rewrite Ho. simpl. by rewrite <- app_assoc. }
  eapply post_weaken; [apply check_run| |].
  - intros ? s2 (_ & _ & _ & _ & Ho2).
    rewrite Ho, served_is_url in Ho2. rewrite <- Ho in Ho2.
    destruct Ho2 as [Ho2 Hs]. unfold again. rewrite Ho2, Hl. by split_and!.
  - intros ? s2 (_ & Ho2).
    rewrite Ho, served_is_url in Ho2. rewrite <- Ho in Ho2.
    destruct Ho2 as (Ho2 & Hs & _). unfold again. rewrite Ho2, Hl. by split_and!.
Qed.

(** X13: when a directory is checked and the report returned, the one
    server that was started and destroyed served that directory, on the
    caller's port if one was given and is not 0, otherwise on a port
    between 5000 and 6000, and the target was replaced by its address. *)
Theorem local_server_root_and_port fuel random w o report s' :
  String.prefix "http" (path o) = false →
  0 ≤ random ≤ 1000 →
  check fuel random (initial w o) = Done report s' →
  ∃ srv,
    servers s' = [listening srv; destroyed srv] ∧
    server_root srv = path o ∧
    path (options s') = ("http://localhost:" ++ string_of_Z (server_port srv))%string ∧
    (∀ p, port o = Some p → p ≠ 0 → server_port srv = p) ∧
    (port o = None ∨ port o = Some 0 → 5000 ≤ server_port srv ≤ 6000).
Proof.
  intros Hdir Hrandom Hrun.
  destruct (check_done _ _ _ _ _ _ Hrun) as (_ & _ & _ & _ & Ho).
  rewrite Hdir in Ho. destruct Ho as [Ho Hs].
  exists (static_server o random). rewrite Ho. split_and!; auto.
  - intros p Hp Hp0. simpl. unfold choose_port. rewrite Hp.
    apply Z.eqb_neq in Hp0. by rewrite Hp0.
  - simpl. unfold choose_port. intros [-> | ->]; simpl; lia.
Qed.

(** X18: every link of a report that is not [SKIPPED] was asked of the
    transport: a first request for its URL is among the requests, a GET
    exactly when the URL is the target or a child that [recurse] and the
    target prefix let through. *)
Theorem fetched_links_were_requested fuel random w o report s' :
  check fuel random (initial w o) = Done report s' →
  ∀ r, r ∈ links report → state r ≠ SKIPPED →
    ∃ q, q ∈ requests s' ∧ req_url q = url r ∧ is_first q = true ∧
         (req_method q = GET ↔
          url r = path (options s') ∨ child_crawl (options s') (url r) = true).
Proof.
  intros Hrun r Hr Hstate.
  destruct (check_done _ _ _ _ _ _ Hrun) as (HI & _ & _ & -> & _).
  simpl in Hr.
  assert (¬ Matches (options s') (url r)) as Hm.
  { intros Hm. by destruct (inv_res_skipped _ _ HI r Hr Hm). }
  destruct (inv_res_fetched _ _ HI r Hr Hm) as (_ & _ & Hq).
  eexists. split; [exact Hq|]. split; [reflexivity|].
  split; [apply is_first_first|].
  rewrite <- eligible_iff. simpl. by destruct (eligible _ _).
Qed.

(** *** The command line *)

(** X15: what the listener of [cli.ts] does with the payloads a run
    emits.  With [silent] it returns without printing for every one of
    them, a broken link included; without it, it prints the [SKP] line of
    a skipped URL and throws ['Invalid state.'] on the payload of every
    URL that was fetched. *)
Theorem cli_listener_on_emitted_payloads fuel random w o flags :
  let heard (s' : State) :=
    ∀ p, p ∈ link_payloads (emitted s') →
      (Cli.flag_silent flags = Some true → Cli.on_link flags p = Cli.quiet) ∧
      (Cli.flag_silent flags ≠ Some true →
         (∃ u, p = PLinkResult (skipped u) ∧
               Cli.on_link flags p =
                 Cli.log flags {| Cli.line_colour := Cli.grey;
                                  Cli.line_label := "SKP";
                                  Cli.line_url := u |}) ∨
         (∃ fr, p = PFetchResult fr ∧ Cli.on_link flags p = Cli.invalid_state)) in
  post (check fuel random) (initial w o) (λ _, heard) (λ _, heard).
Proof.
  intros heard.
  assert (∀ s', Shape s' → heard s') as Hheard.
  { intros s' HS p Hp. unfold Cli.on_link.
    destruct (shape_payloads _ HS p Hp) as [[u ->]|[fr ->]]; simpl; split.
    - by intros ->.
    - intros Hs. left. exists u. split; [reflexivity|].
      by destruct (Cli.flag_silent flags) as [[|]|].
    - by intros ->.
    - intros Hs. right. exists fr. split; [reflexivity|].
      by destruct (Cli.flag_silent flags) as [[|]|]. }
  eapply post_weaken; [apply check_shape| |]; intros ? s' HS; by apply Hheard.
Qed.

Lemma append_assoc (a b c : string) :
  ((a ++ b) ++ c)%string = (a ++ b ++ c)%string.
Proof. induction a as [|x a IH]; [reflexivity|]. by rewrite !append_cons, IH. Qed.

Lemma append_nil_r (a : string) : (a ++ "")%string = a.
Proof. induction a as [|x a IH]; [reflexivity|]. by rewrite append_cons, IH. Qed.

Lemma spaceless_append a b :
  Cli.spaceless (a ++ b)%string = Cli.spaceless a && Cli.spaceless b.
Proof.
  induction a as [|x a IH]; [reflexivity|].
  rewrite append_cons. simpl. rewrite IH. by rewrite andb_assoc.
Qed.

Lemma split_space_spaceless s : ∀ acc,
  Cli.spaceless acc = true →
  Forall (λ p, Cli.spaceless p = true) (Cli.split_space acc s).
Proof.
  induction s as [|c s IH]; intros acc Hacc; simpl.
  - by constructor.
  - destruct (Ascii.eqb c " ") eqn:Hc.
    + constructor; [assumption|]. by apply IH.
    + apply IH. rewrite spaceless_append, Hacc. simpl. by rewrite Hc.
Qed.

Lemma split_space_word x : ∀ acc rest,
  Cli.spaceless x = true →
  Cli.split_space acc (x ++ rest)%string = Cli.split_space (acc ++ x)%string rest.
Proof.
  induction x as [|c x IH]; intros acc rest Hx.
  - by rewrite append_nil, append_nil_r.
  - simpl in Hx. apply andb_true_iff in Hx as [Hc Hx].
    apply negb_true_iff in Hc. rewrite append_cons. simpl. rewrite Hc.
    rewrite IH by assumption. by rewrite append_assoc.
Qed.

Lemma split_space_concat ps :
  ps ≠ [] → Forall (λ p, Cli.spaceless p = true) ps →
  Cli.split_space "" (String.concat " " ps) = ps.
Proof.
  induction ps as [|x [|y ps] IH]; intros Hne Hall; [done| |].
  - simpl. apply Forall_inv in Hall.
    rewrite <- (append_nil_r x) at 1. rewrite split_space_word by assumption.
    reflexivity.
  - apply Forall_cons in Hall as [Hx Hall].
    change (String.concat " " (x :: y :: ps))
      with (x ++ " " ++ String.concat " " (y :: ps))%string.
    rewrite split_space_word by assumption. rewrite append_cons, append_nil.
    simpl. f_equal. by apply IH.
Qed.

Lemma filter_nonempty ps :
  Forall (λ p, p ≠ "") ps → List.filter Cli.nonempty ps = ps.
Proof.
  induction 1 as [|p ps Hp _ IH]; simpl; [reflexivity|].
  unfold Cli.nonempty at 1. apply String.eqb_neq in Hp. rewrite Hp. simpl.
  by rewrite IH.
Qed.

(** X16: the options [main] builds never carry a port; the patterns it
    takes from a [--skip] string are the pieces between its spaces, none
    of them empty or with a space in it; a non-empty list of such
    patterns joined by single spaces comes back as it was; and an absent
    or empty [--skip] leaves [linksToSkip] unset. *)
Theorem cli_options_from_flags input flags :
  port (Cli.opts input flags) = None ∧
  path (Cli.opts input flags) = input ∧
  recurse (Cli.opts input flags) = Cli.flag_recurse flags ∧
  (∀ s l, Cli.flag_skip flags = Some (Cli.skip_string s) →
     linksToSkip (Cli.opts input flags) = Some l →
     ∀ p, p ∈ l → p ≠ "" ∧ Cli.spaceless p = true) ∧
  (∀ ps, Cli.flag_skip flags = Some (Cli.skip_string (String.concat " " ps)) →
     ps ≠ [] → (∀ p, p ∈ ps → p ≠ "" ∧ Cli.spaceless p = true) →
     linksToSkip (Cli.opts input flags) = Some ps) ∧
  (Cli.flag_skip flags = None ∨ Cli.flag_skip flags = Some (Cli.skip_string "") →
     linksToSkip (Cli.opts input flags) = None).
Proof.
  unfold Cli.opts. split_and!.
  - by destruct (Cli.flag_skip flags) as [[s|l]|]; [destruct (Cli.nonempty s)|..].
  - by destruct (Cli.flag_skip flags) as [[s|l]|]; [destruct (Cli.nonempty s)|..].
  - by destruct (Cli.flag_skip flags) as [[s|l]|]; [destruct (Cli.nonempty s)|..].
  - intros s l ->. destruct (Cli.nonempty s); [|discriminate].
    simpl. intros [= <-] p Hp.
    apply list_elem_of_In, filter_In in Hp as [Hp Hne]. split.
    + intros ->. discriminate.
    + pose proof (split_space_spaceless s "" eq_refl) as Hall.
      rewrite Forall_forall in Hall. apply Hall. by apply list_elem_of_In.
  - intros ps -> Hne Hall.
    assert (Forall (λ p, Cli.spaceless p = true) ps) as Hsp
      by (apply Forall_forall; intros p Hp; by apply Hall).
    assert (Forall (λ p, p ≠ "") ps) as Hn
      by (apply Forall_forall; intros p Hp; by apply Hall).
    assert (Cli.nonempty (String.concat " " ps) = true) as ->.
    { destruct ps as [|x [|y ps]]; [done| |].
      - apply Forall_inv in Hn. unfold Cli.nonempty.
        apply String.eqb_neq in Hn. simpl. by rewrite Hn.
      - apply Forall_inv in Hn.
        change (String.concat " " (x :: y :: ps))
          with (x ++ " " ++ String.concat " " (y :: ps))%string.
        destruct x; [done|]. reflexivity. }
    simpl. by rewrite split_space_concat, filter_nonempty.
  - by intros [-> | ->].
Qed.

Lemma some_broken_iff rs :
  (length (List.filter is_broken rs) =? 0)%nat = false ↔
  ∃ r, r ∈ rs ∧ state r = BROKEN.
Proof.
  induction rs as [|r rs IH]; simpl.
  - split; [discriminate|]. intros (r & Hr & _). by apply elem_of_nil in Hr.
  - unfold is_broken at 1. destruct (state r) eqn:Hr; simpl.
    + rewrite IH. split.
      * intros (r' & Hr' & Hb). exists r'. split; [by apply list_elem_of_further|done].
      * intros (r' & [->|Hr']%elem_of_cons & Hb); [congruence|eauto].
    + split; [|reflexivity]. intros _. exists r. split; [apply list_elem_of_here|done].
    + rewrite IH. split.
      * intros (r' & Hr' & Hb). exists r'. split; [by apply list_elem_of_further|done].
      * intros (r' & [->|Hr']%elem_of_cons & Hb); [congruence|eauto].
Qed.

(** X17: after a run, [main] ends the process with status 1 exactly when
    some link of the report is [BROKEN] and the output format is neither
    [json] nor [csv], in any letter case; with one of these formats it
    prints the report and returns, broken links or not. *)
Theorem exit_status_of_a_run fuel random s report s' flags :
  check fuel random s = Done report s' →
  let structured :=
    ∃ f, Cli.flag_format flags = Some f ∧
         (Cli.toLowerCase f = "json" ∨ Cli.toLowerCase f = "csv") in
  (structured → Cli.exit_status flags report = 0) ∧
  (¬ structured →
     (Cli.exit_status flags report = 1 ↔ ∃ r, r ∈ links report ∧ state r = BROKEN) ∧
     (Cli.exit_status flags report = 0 ↔ ∀ r, r ∈ links report → state r ≠ BROKEN)).
Proof.
  intros Hrun structured. destruct (check_report _ _ _ _ _ Hrun) as [rs ->].
  assert ((if passed (report_of rs) then 0 else 1) = 1 ↔
          ∃ r, r ∈ links (report_of rs) ∧ state r = BROKEN) as H1.
  { simpl. rewrite <- some_broken_iff.
    destruct (length (List.filter is_broken rs) =? 0)%nat; split; done. }
  assert ((if passed (report_of rs) then 0 else 1) = 0 ↔
          ∀ r, r ∈ links (report_of rs) → state r ≠ BROKEN) as H0.
  { simpl. rewrite <- no_broken_spec.
    destruct (length (List.filter is_broken rs) =? 0)%nat; split; done. }
  unfold Cli.exit_status. split.
  - intros (f & -> & Hf).
    destruct (Cli.nonempty f) eqn:Hne.
    + destruct Hf as [-> | ->]; reflexivity.
    + unfold Cli.nonempty in Hne. apply negb_false_iff, String.eqb_eq in Hne.
      subst f. destruct Hf; discriminate.
  - intros Hn. destruct (Cli.flag_format flags) as [f|] eqn:Hf; [|by split].
    destruct (Cli.nonempty f); [|by split].
    destruct (String.eqb_spec (Cli.toLowerCase f) "json") as [Hj|_].
    { exfalso. apply Hn. exists f. auto. }
    destruct (String.eqb_spec (Cli.toLowerCase f) "csv") as [Hc|_].
    { exfalso. apply Hn. exists f. auto. }
    by split.
Qed.

(** *** Every link of an expanded page is handled *)

Lemma Handled_refl s : Handled s s.
Proof.
  exists []. rewrite app_nil_r. split; [reflexivity|]. split; [reflexivity|].
  intros u Hu. by apply elem_of_nil in Hu.
Qed.

Lemma Handled_trans s1 s2 s3 : Handled s1 s2 → Handled s2 s3 → Handled s1 s3.
Proof.
  intros (es1 & He1 & Hc1 & H1) (es2 & He2 & Hc2 & H2).
  exists (es1 ++ es2). split_and!.
  - by rewrite He2, He1, app_assoc.
  - by etrans.
  - intros u. rewrite pagestarts_app, elem_of_app. intros [Hu|Hu].
    + destruct (H1 u Hu) as (fr & Hl & Hurl & Hh & Hv).
      exists fr. split_and!; [apply elem_of_app; by left|done|done|].
      intros v Hin. apply Hc2. by apply Hv.
    + destruct (H2 u Hu) as (fr & Hl & Hurl & Hh & Hv).
      exists fr. split_and!; [apply elem_of_app; by right|done..].
Qed.

Lemma Handled_cache s s' : Handled s s' → cache s ⊆ cache s'.
Proof. by intros (_ & _ & Hc & _). Qed.

Lemma Handled_recorded s s1 u p :
  emitted s1 = emitted s → cache s1 = cache s → Handled s (recorded u p s1).
Proof.
  intros He Hc. exists [link p]. simpl. rewrite He, Hc. split_and!.
  - reflexivity.
  - apply union_subseteq_r.
  - intros v Hv. by apply elem_of_nil in Hv.
Qed.

Lemma children_handled o fuel :
  (∀ u c s,
     post (_filterCachedFilterSkippedThenCrawlUrlAndChildren fuel o u c) s
       (λ _ s', Handled s s' ∧ u ∈ cache s') (λ _ _, True)) →
  ∀ (l : list string) s,
    post (forEach l
            (λ u, bind (_filterCachedFilterSkippedThenCrawlUrlAndChildren
                          fuel o u (child_crawl o u)) (λ _, ret tt)))
         s (λ _ s', Handled s s' ∧ ∀ v, v ∈ l → v ∈ cache s') (λ _ _, True).
Proof.
  intros IH. induction l as [|a l IHl]; intros s; simpl.
  - split; [apply Handled_refl|]. intros v Hv. by apply elem_of_nil in Hv.
  - apply post_bind. apply post_bind.
    eapply post_weaken; [apply IH| |auto].
    intros ? s1 [H1 Ha]. unfold post at 1, ret.
    eapply post_weaken; [apply IHl| |auto].
    intros ? s2 [H2 Hl]. split; [by eapply Handled_trans|].
    intros v [->|Hv]%elem_of_cons; [|by apply Hl].
    by apply (Handled_cache _ _ H2).
Qed.

Lemma crawl_handled o fuel : ∀ u c s,
  post (_filterCachedFilterSkippedThenCrawlUrlAndChildren fuel o u c) s
       (λ _ s', Handled s s' ∧ u ∈ cache s') (λ _ _, True).
Proof.
  induction fuel as [|fuel IH]; intros u c s; [exact I|].
  cbn [_filterCachedFilterSkippedThenCrawlUrlAndChildren].
  apply post_bind. unfold post at 1, cache_has.
  destruct (bool_decide_reflect (u ∈ cache s)) as [Hin|Hnin].
  - unfold post, get_results. split; [apply Handled_refl|assumption].
  - assert (∀ C : gset string, u ∈ {[u]} ∪ C) as Hhere
      by (intros C; apply elem_of_union_l; by apply elem_of_singleton).
    apply post_bind. unfold post at 1, cache_add. fold (scanned u s).
    apply post_bind. unfold post at 1.
    pose proof (compute_skips_spec o u (scanned u s)) as Hsk.
    destruct (compute_skips o u (scanned u s)) as [skips s1|e s1|]; try exact I.
    destruct Hsk as (-> & _ & _).
    destruct (0 <? length skips)%nat.
    + change (Handled s (recorded u (PLinkResult (skipped u)) s) ∧
              u ∈ cache (recorded u (PLinkResult (skipped u)) s)).
      split; [by apply Handled_recorded|apply Hhere].
    + destruct (_fetch_spec u c (scanned u s)) as (fr & w & qs & Hf & _ & Hfr).
      destruct (fetched_result_shape _ _ Hfr) as [Hurl _].
      apply post_bind. unfold post at 1. rewrite Hf.
      apply post_bind. unfold post at 1, results_push.
      apply post_bind. unfold post at 1, emit.
      match goal with |- post _ ?st _ _ =>
        change st with (recorded u (PFetchResult fr) (transported s w qs)) end.
      set (s3 := recorded u (PFetchResult fr) (transported s w qs)).
      assert (Handled s s3) as H3 by (by apply Handled_recorded).
      apply post_bind.
      destruct (c && shouldRecurse fr) eqn:Hexp.
      * apply andb_true_iff in Hexp as [-> Hhtml].
        apply post_bind. unfold post at 1, emit. fold (announced u s3).
        eapply post_weaken; [apply (children_handled o fuel IH)| |auto].
        intros ? s' ((es & He & Hc & Hes) & Hkids).
        unfold post, get_results. split.
        -- exists ([link (PFetchResult fr); pagestart u] ++ es). split_and!.
           ++ rewrite He. simpl. by rewrite <- !app_assoc.
           ++ etrans; [|exact Hc]. simpl. apply union_subseteq_r.
           ++ intros v. rewrite pagestarts_app, elem_of_app. simpl.
              intros [Hv|Hv].
              ** apply list_elem_of_singleton in Hv as ->.
                 exists fr. split_and!; [apply list_elem_of_here|done..].
              ** destruct (Hes v Hv) as (fr' & Hl & Hu' & Hh' & Hv').
                 exists fr'.
                 split_and!; [by apply list_elem_of_further,
                                list_elem_of_further|done..].
        -- apply Hc. apply Hhere.
      * unfold post, ret, get_results. split; [exact H3|apply Hhere].
Qed.

Lemma check_handled fuel random w o report s' :
  check fuel random (initial w o) = Done report s' →
  ∀ u, u ∈ pagestarts (emitted s') →
    ∃ fr, link (PFetchResult fr) ∈ emitted s' ∧ url (linkResult fr) = u ∧
          shouldRecurse fr = true ∧
          ∀ v, v ∈ getLinks (data fr) u → v ∈ cache s'.
Proof.
  intros Hrun.
  destruct (check_traversal _ _ _ _ _ _ Hrun)
    as (s0 & rs & s'' & Hc & _ & _ & He0 & _ & _ & -> & _ & ->).
  pose proof (crawl_handled (options s') fuel (path (options s')) true s0) as Hh.
  unfold post in Hh. rewrite Hc in Hh.
  destruct Hh as ((es & He & _ & Hes) & _).
  rewrite He, He0. exact Hes.
Qed.

Lemma no_first_request (l : list Request) v :
  v ∉ req_url <$> List.filter is_first l →
  List.filter (λ q, is_first q && String.eqb (req_url q) v) l = [].
Proof.
  induction l as [|a l IH]; simpl; [reflexivity|].
  destruct (is_first a) eqn:Ha; simpl; [|exact IH].
  intros Hv. apply not_elem_of_cons in Hv as [Hne Hv].
  apply String.eqb_neq in Hne. rewrite String.eqb_sym, Hne. by apply IH.
Qed.

Lemma one_first_request (l : list Request) q :
  NoDup (req_url <$> List.filter is_first l) → q ∈ l → is_first q = true →
  List.filter (λ q', is_first q' && String.eqb (req_url q') (req_url q)) l = [q].
Proof.
  induction l as [|a l IH]; simpl; intros Hnd Hq Hf.
  - by apply elem_of_nil in Hq.
  - destruct (is_first a) eqn:Ha; simpl in *.
    + apply NoDup_cons in Hnd as [Hnin Hnd].
      apply elem_of_cons in Hq as [->|Hq].
      * rewrite String.eqb_refl. f_equal. by apply no_first_request.
      * destruct (String.eqb_spec (req_url a) (req_url q)) as [Heq|_];
          [|by apply IH].
        exfalso. apply Hnin. rewrite Heq. apply list_elem_of_fmap.
        exists q. split; [reflexivity|].
        apply list_elem_of_In, filter_In. split; [by apply list_elem_of_In|done].
    + apply elem_of_cons in Hq as [->|Hq]; [congruence|by apply IH].
Qed.

(** C3, as the code has it: a child link is handled with [crawl] true
    exactly when [recurse] is true and the link starts with the target, so
    only the target and such children are requested with GET for their
    body and expanded.  Every link [getLinks] finds on an expanded page is
    handled: when the run returns it is scanned and has its link in the
    report; if a skip pattern matches it, it was never requested; if
    none does, it was requested exactly once as a first request, with HEAD
    when it failed the condition (and is not the target), and then it was
    never expanded.  A call with [crawl] false never expands its page,
    whatever the content type: it emits no [pagestart], scans no other
    URL, and requests its URL once, with HEAD and the GET retry on a 405,
    unless the URL was scanned already or matches a skip pattern, in which
    case nothing is requested. *)
Theorem children_expanded_only_under_target :
  (∀ o u, child_crawl o u = true ↔
          recurse o = Some true ∧ String.prefix (path o) u = true) ∧
  (∀ fuel random w o report s',
     check fuel random (initial w o) = Done report s' →
     (∀ q, q ∈ requests s' → is_first q = true →
        (req_method q = GET ↔
         req_url q = path (options s') ∨
         child_crawl (options s') (req_url q) = true)) ∧
     (∀ u, u ∈ pagestarts (emitted s') →
        u = path (options s') ∨ child_crawl (options s') u = true) ∧
     (∀ u, u ∈ pagestarts (emitted s') →
        ∃ fr, link (PFetchResult fr) ∈ emitted s' ∧ url (linkResult fr) = u ∧
          ∀ v, v ∈ getLinks (data fr) u →
            v ∈ cache s' ∧
            (∃ r, r ∈ links report ∧ url r = v) ∧
            (Matches (options s') v → ∀ q, q ∈ requests s' → req_url q ≠ v) ∧
            (¬ Matches (options s') v →
               List.filter (λ q, is_first q && String.eqb (req_url q) v)
                 (requests s')
               = [ if bool_decide (v = path (options s'))
                      || child_crawl (options s') v
                   then {| req_method := GET; req_url := v;
                           req_responseType := text |}
                   else {| req_method := HEAD; req_url := v;
                           req_responseType := stream |} ]) ∧
            (child_crawl (options s') v = false → v ≠ path (options s') →
               v ∉ pagestarts (emitted s')))) ∧
  (∀ fuel o u s,
     match _filterCachedFilterSkippedThenCrawlUrlAndChildren (S fuel) o u false s with
     | Done _ s' =>
         pagestarts (emitted s') = pagestarts (emitted s) ∧
         (∀ v, v ∈ cache s' → v = u ∨ v ∈ cache s) ∧
         (u ∈ cache s → s' = s) ∧
         (u ∉ cache s → Matches o u →
            requests s' = requests s ∧ results s' = results s ++ [skipped u]) ∧
         (u ∉ cache s → ¬ Matches o u →
            (requests s' = requests s ++ [first_request u false] ∨
             requests s' = requests s ++ [first_request u false; retry_request u]) ∧
            ∃ r, results s' = results s ++ [r] ∧ url r = u ∧ state r ≠ SKIPPED)
     | Throw e s' => BadPatterns o e
     | OutOfFuel => False
     end).
Proof.
  split_and!.
  - apply child_crawl_iff.
  - intros fuel random w o report s' Hrun.
    destruct (check_done _ _ _ _ _ _ Hrun) as (HI & HC & _ & Hrep & _).
    assert (∀ u, u ∈ pagestarts (emitted s') →
              u = path (options s') ∨ child_crawl (options s') u = true) as Hps.
    { intros u Hu. apply eligible_iff. by apply (inv_pagestart _ _ HI). }
    split_and!.
    + intros q Hq Hfirst. rewrite <- eligible_iff.
      destruct (inv_req_shape _ _ HI q Hq) as [Hs|Hs].
      * rewrite Hs at 1. simpl. by destruct (eligible _ _).
      * rewrite Hs in Hfirst. discriminate.
    + exact Hps.
    + intros u Hu.
      destruct (check_handled _ _ _ _ _ _ Hrun u Hu) as (fr & Hl & Hurl & _ & Hkids).
      exists fr. split; [assumption|]. split; [assumption|].
      intros v Hv. pose proof (Hkids v Hv) as Hc.
      destruct (list_elem_of_fmap_1 _ _ _ (HC v Hc)) as (r & Hrv & Hr).
      split_and!.
      * exact Hc.
      * exists r. rewrite Hrep. by split.
      * intros Hm q Hq Hqv. apply (inv_req_unskipped _ _ HI q Hq).
        by rewrite Hqv.
      * intros Hm. rewrite Hrv in Hm.
        destruct (inv_res_fetched _ _ HI r Hr Hm) as (_ & _ & Hq).
        rewrite <- Hrv in Hq.
        pose proof (one_first_request _ _ (inv_first_nodup _ _ HI) Hq
                      (is_first_first _ _)) as Hone.
        simpl in Hone. rewrite Hone. f_equal. unfold first_request, eligible.
        by destruct (bool_decide (v = path (options s')) || child_crawl _ v).
      * intros Hchild Hne Hin. destruct (Hps v Hin) as [?|Ht]; [done|].
        congruence.
  - apply crawl_leaf.
Qed.



(** C8, as the code has it: [check] writes to the caller's options
    object.  When it ends, [recurse] and [port] are as they were,
    [linksToSkip] is the caller's list (the empty list if there was none)
    with ["^mailto:"] appended, and [path] is as it was when it started
    with [http] or the local server could not listen, and is the address
    of the local server otherwise. *)
Theorem options_after_check fuel random w o :
  let after (s' : State) :=
    recurse (options s') = recurse o ∧
    port (options s') = port o ∧
    linksToSkip (options s') = Some (default [] (linksToSkip o) ++ ["^mailto:"]) ∧
    path (options s') =
      if String.prefix "http" (path o) then path o
      else if (http_listen (static_server o random) w).1
           then ("http://localhost:" ++ string_of_Z (choose_port o random))%string
           else path o in
  post (check fuel random) (initial w o) (λ _, after) (λ _, after).
Proof.
  intros after. unfold post. rewrite check_unfold. cbv zeta.
  change (options (initial w o)) with o. change (world (initial w o)) with w.
  unfold after. destruct (String.prefix "http" (path o)) eqn:Hurl.
  - pose proof (crawl_post (normalized o) fuel (path o) true
                  (started (normalized o) (initial w o))
                  (Inv_initial _ _ _ _) (Complete_started _ _)
                  (or_introl (conj eq_refl eq_refl))) as Hc.
    unfold post in Hc.
    destruct (_filterCachedFilterSkippedThenCrawlUrlAndChildren _ _ _ _ _)
      as [rs s'|e s'|]; [| |exact I].
    + destruct Hc as (_ & _ & (_ & Ho & _) & _). rewrite Ho. by split_and!.
    + destruct Hc as (_ & (_ & Ho & _) & _). rewrite Ho. by split_and!.
  - destruct (http_listen (static_server o random) w) as [[|] w'] eqn:Hl.
    + pose proof (crawl_post (served o random) fuel (path (served o random)) true
                    (started (served o random)
                       (log_server (listening (static_server o random)) w'
                          (initial w o)))
                    (Inv_initial _ _ _ _) (Complete_started _ _)
                    (or_introl (conj eq_refl eq_refl))) as Hc.
      unfold post in Hc.
      destruct (_filterCachedFilterSkippedThenCrawlUrlAndChildren _ _ _ _ _)
        as [rs s'|e s'|]; [| |exact I].
      * destruct Hc as (_ & _ & (_ & Ho & _) & _). simpl.
        simpl in Ho. rewrite Ho. by split_and!.
      * destruct Hc as (_ & (_ & Ho & _) & _). simpl in Ho. rewrite Ho.
        by split_and!.
    + by split_and!.
Qed.

End Proofs.

(** ** The checker at work on the demo web *)

Lemma passed_iff_no_broken_witness :
  ∃ report s',
    @check Demo.demo 10 7 (@initial Demo.demo Demo.web1 Demo.opts1) = Done report s' ∧
    (passed report = true ↔ ∀ r, r ∈ links report → state r ≠ BROKEN).
Proof.
  eexists _, _. split; [vm_compute; reflexivity|].
  eapply (@passed_iff_no_broken Demo.demo 10 7
            (@initial Demo.demo Demo.web1 Demo.opts1)).
  vm_compute. reflexivity.
Defined.

Lemma retry_once_with_GET_on_405_witness :
  ∃ r1 fr s',
    res_status r1 = 405 ∧
    @_fetch Demo.demo "http://other/" false
      (@initial Demo.demo Demo.web1 Demo.opts1) = Done fr s' ∧
    state (linkResult fr) = OK ∧ status (linkResult fr) = Some 200.
Proof.
  destruct (@retry_once_with_GET_on_405 Demo.demo "http://other/" false
              (@initial Demo.demo Demo.web1 Demo.opts1)
              (Demo.html 405 "") Demo.web1 eq_refl eq_refl)
    as (fr & s' & Hf & _ & Hr).
  destruct (Hr (Demo.html 200 "http://other/deep") Demo.web1 eq_refl)
    as (Hst & Hs & _).
  exists (Demo.html 405 ""), fr, s'. split_and!; auto.
Defined.

Lemma one_result_and_one_fetch_per_url_witness :
  ∃ report s',
    @check Demo.demo 10 7 (@initial Demo.demo Demo.web1 Demo.opts1) = Done report s' ∧
    NoDup (url <$> links report) ∧
    NoDup (req_url <$> List.filter is_first (requests s')).
Proof.
  eexists _, _. split; [vm_compute; reflexivity|].
  refine ((λ H, conj (proj1 H) (proj1 (proj2 (proj2 (proj2 H)))))
            (@one_result_and_one_fetch_per_url Demo.demo 10 7
               Demo.web1 Demo.opts1 _ _ _)).
  vm_compute. reflexivity.
Defined.

(** The claim of C1 that the transport is asked at most once for a URL
    fails where HEAD is rejected: [http://other/] is requested twice. *)
Lemma one_url_requested_twice :
  ∃ report s',
    @check Demo.demo 10 7 (@initial Demo.demo Demo.web1 Demo.opts1) = Done report s' ∧
    List.filter (λ q, String.eqb (req_url q) "http://other/") (requests s') =
      [ {| req_method := HEAD; req_url := "http://other/"; req_responseType := stream |};
        {| req_method := GET; req_url := "http://other/"; req_responseType := stream |} ].
Proof. eexists _, _. split; vm_compute; reflexivity. Qed.

Lemma children_expanded_only_under_target_witness :
  ∃ report s',
    @check Demo.demo 10 7 (@initial Demo.demo Demo.web1 Demo.opts1) = Done report s' ∧
    pagestarts (emitted s') = ["http://x/a"; "http://x/a/b"] ∧
    "http://other/" ∈ @getLinks Demo.demo Demo.body1 "http://x/a" ∧
    child_crawl (options s') "http://other/" = false ∧
    List.filter (λ q, is_first q && String.eqb (req_url q) "http://other/")
      (requests s')
    = [ {| req_method := HEAD; req_url := "http://other/";
           req_responseType := stream |} ] ∧
    (∀ u, u ∈ pagestarts (emitted s') →
       ∃ fr, link (PFetchResult fr) ∈ emitted s' ∧ url (linkResult fr) = u ∧
         ∀ v, v ∈ @getLinks Demo.demo (data fr) u →
           v ∈ cache s' ∧
           (∃ r, r ∈ links report ∧ url r = v) ∧
           (child_crawl (options s') v = false → v ≠ path (options s') →
              v ∉ pagestarts (emitted s'))).
Proof.
  eexists _, _. split; [vm_compute; reflexivity|].
  split; [vm_compute; reflexivity|].
  split; [apply list_elem_of_In; vm_compute; tauto|].
  split; [vm_compute; reflexivity|].
  split; [vm_compute; reflexivity|].
  intros u Hu.
  destruct (proj2 (proj2 (proj1 (proj2
              (@children_expanded_only_under_target Demo.demo))
              10%nat 7 Demo.web1 Demo.opts1 _ _ ltac:(vm_compute; reflexivity)))
              u Hu) as (fr & Hl & Hurl & Hkids).
  exists fr. split; [exact Hl|]. split; [exact Hurl|].
  intros v Hv. destruct (Hkids v Hv) as (Hc & Hr & _ & _ & Hn). by split_and!.
Defined.

(** The claim of C3 that a child failing the condition is still fetched
    once fails for a child that matches a skip pattern: the mail link of
    the target page is a child with [crawl] false; it is handled, its
    link in the report is [SKIPPED], and the transport is never asked for
    it. *)
Lemma skipped_child_is_never_fetched :
  ∃ report s',
    @check Demo.demo 10 7 (@initial Demo.demo Demo.web1 Demo.opts1) = Done report s' ∧
    link (PFetchResult
            {| data := Demo.body1; shouldRecurse := true;
               linkResult := {| url := "http://x/a"; status := Some 200;
                                state := OK |} |}) ∈ emitted s' ∧
    "mailto:me@x" ∈ @getLinks Demo.demo Demo.body1 "http://x/a" ∧
    child_crawl (options s') "mailto:me@x" = false ∧
    {| url := "mailto:me@x"; status := None; state := SKIPPED |} ∈ links report ∧
    List.filter (λ q, String.eqb (req_url q) "mailto:me@x") (requests s') = [].
Proof.
  eexists _, _. split; [vm_compute; reflexivity|].
  split; [apply list_elem_of_here|].
  split; [apply list_elem_of_In; vm_compute; tauto|].
  split; [vm_compute; reflexivity|].
  split; [apply list_elem_of_In; vm_compute; tauto|].
  vm_compute; reflexivity.
Qed.






(** C6 on a run that fetches one page: the payload of the ['link'] event
    is the object [_fetch] returned, with the [LinkResult] of the report
    inside it, not that [LinkResult]. *)
Theorem link_event_carries_the_fetch_result :
  let r := {| url := "http://x/ok"; status := Some 200; state := OK |} in
  ∃ s',
    @check Demo.demo 10 7 (@initial Demo.demo Demo.web2 Demo.opts2)
      = Done {| passed := true; links := [r] |} s' ∧
    emitted s' =
      [link (PFetchResult {| data := ""; shouldRecurse := false; linkResult := r |})] ∧
    link_payloads (emitted s') ≠ PLinkResult <$> [r].
Proof.
  eexists. split_and!; [vm_compute; reflexivity..|discriminate].
Qed.

Lemma server_destroyed_once_on_return_witness :
  ∃ report s',
    @check Demo.demo 10 7 (@initial Demo.demo Demo.web3 Demo.opts3) = Done report s' ∧
    servers s' = [listening {| server_root := "site"; server_port := 8080 |};
                  destroyed {| server_root := "site"; server_port := 8080 |}].
Proof.
  eexists _, _. split; [vm_compute; reflexivity|].
  refine (post_Done _ _ _ _ _ _
            (@server_destroyed_once_on_return Demo.demo 10 7
               Demo.web3 Demo.opts3 eq_refl) _).
  vm_compute. reflexivity.
Defined.

(** The claim of C7 that the server is stopped on every exit path fails
    when the traversal throws: the server is left listening. *)
Lemma server_left_listening_when_traversal_throws :
  ∃ s',
    @check Demo.demo 10 7 (@initial Demo.demo Demo.web3 Demo.opts4)
      = Throw (SyntaxError "(") s' ∧
    servers s' = [listening {| server_root := "site"; server_port := 5007 |}].
Proof. eexists. split; vm_compute; reflexivity. Qed.

(** The claim of C8 that the options are as they were fails: the
    caller's object comes back with the built-in pattern in it. *)
Lemma options_changed_by_check :
  ∃ report s',
    @check Demo.demo 10 7 (@initial Demo.demo Demo.web1 Demo.opts1) = Done report s' ∧
    linksToSkip Demo.opts1 = None ∧
    linksToSkip (options s') = Some ["^mailto:"] ∧
    options s' ≠ Demo.opts1.
Proof.
  eexists _, _. split_and!; [vm_compute; reflexivity..|discriminate].
Qed.

Lemma malformed_pattern_rejects_at_first_url_witness :
  @Malformed Demo.demo Demo.opts4 ∧
  ∃ e s',
    @check Demo.demo 1 7 (@initial Demo.demo Demo.web3 Demo.opts4) = Throw e s' ∧
    requests s' = [] ∧ emitted s' = [] ∧ results s' = [].
Proof.
  assert (@Malformed Demo.demo Demo.opts4) as Hm.
  { exists "(". split; [apply list_elem_of_here|reflexivity]. }
  split; [exact Hm|].
  destruct (@malformed_pattern_rejects_at_first_url Demo.demo 0 7
              Demo.web3 Demo.opts4 Hm) as (e & s' & Hrun & Hq & He & Hr & _).
  exists e, s'. auto.
Defined.

(** The claim of C9 that the error comes before the traversal starts
    fails: when [check] rejects, the local server has been started and
    the target is in the set of scanned URLs. *)
Lemma malformed_pattern_found_during_traversal :
  ∃ s',
    @check Demo.demo 10 7 (@initial Demo.demo Demo.web3 Demo.opts4)
      = Throw (SyntaxError "(") s' ∧
    elements (cache s') = ["http://localhost:5007"] ∧
    servers s' = [listening {| server_root := "site"; server_port := 5007 |}].
Proof. eexists. split_and!; vm_compute; reflexivity. Qed.

(** ** More runs on the demo webs *)

Lemma result_state_follows_status_witness :
  ∃ report s',
    @check Demo.demo 10 7 (@initial Demo.demo Demo.web1 Demo.opts1) = Done report s' ∧
    ∀ r, r ∈ links report → (state r = SKIPPED ↔ status r = None).
Proof.
  eexists _, _. split; [vm_compute; reflexivity|].
  refine (λ r Hr, proj1 (@result_state_follows_status Demo.demo 10 7
                           Demo.web1 Demo.opts1 _ _ _ r Hr)).
  vm_compute. reflexivity.
Defined.

Lemma url_target_starts_no_server_witness :
  ∃ report s',
    @check Demo.demo 10 7 (@initial Demo.demo Demo.web1 Demo.opts1) = Done report s' ∧
    servers s' = [] ∧ path (options s') = "http://x/a".
Proof.
  eexists _, _. split; [vm_compute; reflexivity|].
  refine (post_Done _ _ _ _ _ _
            (@url_target_starts_no_server Demo.demo 10 7
               Demo.web1 Demo.opts1 eq_refl) _).
  vm_compute. reflexivity.
Defined.

Lemma listen_failure_rejects_before_traversal_witness :
  ∃ s',
    @check Demo.demo 10 7 (@initial Demo.demo Site.web5 Demo.opts3)
      = Throw (ListenError {| server_root := "site"; server_port := 8080 |}) s' ∧
    requests s' = [] ∧ emitted s' = [] ∧ results s' = [] ∧ servers s' = [] ∧
    path (options s') = "site" ∧
    linksToSkip (options s') = Some ["^mailto:"].
Proof.
  exact (@listen_failure_rejects_before_traversal Demo.demo 10 7
           Site.web5 Demo.opts3 eq_refl eq_refl).
Defined.

Lemma target_is_first_link_witness :
  ∃ report s' r rest,
    @check Demo.demo 10 7 (@initial Demo.demo Demo.web3 Demo.opts3) = Done report s' ∧
    links report = r :: rest ∧ url r = "http://localhost:8080".
Proof.
  assert (∃ report s',
            @check Demo.demo 10 7 (@initial Demo.demo Demo.web3 Demo.opts3)
              = Done report s' ∧ path (options s') = "http://localhost:8080")
    as (report & s' & Hrun & Hp).
  { eexists _, _. split; vm_compute; reflexivity. }
  destruct (@target_is_first_link Demo.demo 10 7 Demo.web3 Demo.opts3
              report s' Hrun) as (r & rest & Hl & Hu).
  exists report, s', r, rest. split_and!; [assumption..|congruence].
Defined.

Lemma no_mail_pattern_matches o u :
  linksToSkip o = None → String.prefix "mailto:" u = false →
  ¬ @Matches Demo.demo (normalized o) u.
Proof.
  intros Ho Hu (p & re & Hp & Hc & Ht). simpl in Hp. rewrite Ho in Hp.
  apply list_elem_of_singleton in Hp as ->. injection Hc as <-.
  simpl in Ht. congruence.
Qed.

Lemma html_page_expanded_whatever_status_witness :
  ∃ rs s',
    @_filterCachedFilterSkippedThenCrawlUrlAndChildren Demo.demo 6
      (normalized Site.opts4) "http://x/gone" true
      (@initial Demo.demo Site.web4 Site.opts4) = Done rs s' ∧
    [ {| url := "http://x/gone"; status := Some 404; state := BROKEN |} ]
      `prefix_of` results s' ∧
    pagestarts (emitted s') = ["http://x/gone"].
Proof.
  eexists _, _. split; [vm_compute; reflexivity|].
  split; [|vm_compute; reflexivity].
  refine (proj1 (post_Done _ _ _ _ _ _
            (@html_page_expanded_whatever_status Demo.demo
               (normalized Site.opts4) 5 "http://x/gone"
               (@initial Demo.demo Site.web4 Site.opts4)
               (Demo.html 404 "http://x/home") Site.web4
               _ (no_mail_pattern_matches Site.opts4 "http://x/gone" eq_refl eq_refl)
               eq_refl _ eq_refl) _)).
  - apply not_elem_of_empty.
  - discriminate.
  - vm_compute. reflexivity.
Defined.

Lemma site_patterns_well_formed :
  ¬ @Malformed Demo.demo (normalized Site.opts7).
Proof.
  intros (p & Hp & Hn). simpl in Hp.
  apply elem_of_cons in Hp as [->|Hp]; [discriminate|].
  apply list_elem_of_singleton in Hp as ->. discriminate.
Qed.

Lemma skipped_target_report_witness :
  ∃ s',
    @check Demo.demo 1 7 (@initial Demo.demo Demo.web1 Site.opts7) =
      Done {| passed := true;
              links := [ {| url := "http://x/a"; status := None; state := SKIPPED |} ] |}
           s' ∧
    requests s' = [].
Proof.
  destruct (@skipped_target_report Demo.demo 0 7 Demo.web1 Site.opts7
              eq_refl site_patterns_well_formed) as (s' & Hrun & Hq & _).
  { exists "x/a", (Demo.Floating "x/a").
    split; [apply list_elem_of_here|]. split; reflexivity. }
  exists s'. by split.
Defined.

Lemma mail_pattern_well_formed :
  ¬ @Malformed Demo.demo (normalized Site.opts8).
Proof.
  intros (p & Hp & Hn). simpl in Hp.
  apply list_elem_of_singleton in Hp as ->. discriminate.
Qed.

Lemma unreachable_target_report_witness :
  ∃ s',
    @check Demo.demo 1 7 (@initial Demo.demo Demo.web1 Site.opts8) =
      Done {| passed := false;
              links := [ {| url := "http://down/"; status := Some 0; state := BROKEN |} ] |}
           s' ∧
    pagestarts (emitted s') = [].
Proof.
  destruct (@unreachable_target_report Demo.demo 0 7 Demo.web1 Site.opts8
              Demo.web1 eq_refl mail_pattern_well_formed
              (no_mail_pattern_matches Site.opts8 "http://down/" eq_refl eq_refl)
              eq_refl)
    as (s' & Hrun & _ & Hp).
  exists s'. by split.
Defined.

Lemma without_recurse_only_target_expanded_witness :
  ∃ report s',
    @check Demo.demo 10 7 (@initial Demo.demo Demo.web1 Site.opts6) = Done report s' ∧
    pagestarts (emitted s') = ["http://x/a"] ∧
    (pagestarts (emitted s') = [] ∨
     pagestarts (emitted s') = [path (options s')]).
Proof.
  eexists _, _. split; [vm_compute; reflexivity|].
  split; [vm_compute; reflexivity|].
  refine (proj1 (@without_recurse_only_target_expanded Demo.demo 10 7
                   Demo.web1 Site.opts6 _ _ _ _)).
  - discriminate.
  - vm_compute. reflexivity.
Defined.

Lemma second_check_on_the_same_options_witness :
  ∃ report1 s1 report2 s2,
    @check Demo.demo 10 7 (@initial Demo.demo Demo.web3 Demo.opts3) = Done report1 s1 ∧
    @check Demo.demo 10 7 (@initial Demo.demo Demo.web3 (options s1)) = Done report2 s2 ∧
    servers s2 = [] ∧
    linksToSkip (options s2) = Some ["^mailto:"; "^mailto:"].
Proof.
  eexists _, _, _, _. split; [vm_compute; reflexivity|].
  split; [vm_compute; reflexivity|].
  refine ((λ H, conj (proj1 H) (proj2 (proj2 (proj2 H))))
            (post_Done _ _ _ _ _ _
               (@second_check_on_the_same_options Demo.demo 10 7
                  Demo.web3 Demo.opts3 _ _ 10%nat 7 Demo.web3 eq_refl _) _)).
  - vm_compute. reflexivity.
  - vm_compute. reflexivity.
Defined.

Lemma local_server_root_and_port_witness :
  ∃ report s' srv,
    @check Demo.demo 10 7 (@initial Demo.demo Demo.web3 Demo.opts3) = Done report s' ∧
    servers s' = [listening srv; destroyed srv] ∧
    server_root srv = "site" ∧ server_port srv = 8080.
Proof.
  assert (∃ report s',
            @check Demo.demo 10 7 (@initial Demo.demo Demo.web3 Demo.opts3)
              = Done report s') as (report & s' & Hrun).
  { eexists _, _. vm_compute. reflexivity. }
  destruct (@local_server_root_and_port Demo.demo 10 7 Demo.web3 Demo.opts3
              report s' eq_refl) as (srv & Hs & Hr & _ & Hp & _);
    [lia|exact Hrun|].
  exists report, s', srv. split_and!; auto.
Defined.

Lemma cli_options_from_flags_witness :
  linksToSkip
    (Cli.opts "site"
       {| Cli.flag_recurse := Some true;
          Cli.flag_skip := Some (Cli.skip_string "foo bar");
          Cli.flag_format := None; Cli.flag_silent := None |})
  = Some ["foo"; "bar"].
Proof.
  refine (proj1 (proj2 (proj2 (proj2 (proj2
            (cli_options_from_flags "site"
               {| Cli.flag_recurse := Some true;
                  Cli.flag_skip := Some (Cli.skip_string "foo bar");
                  Cli.flag_format := None; Cli.flag_silent := None |})))))
            ["foo"; "bar"] eq_refl _ _).
  - discriminate.
  - intros p [->|Hp]%elem_of_cons; [by split|].
    apply list_elem_of_singleton in Hp as ->. by split.
Defined.

Lemma exit_status_of_a_run_witness :
  ∃ report s',
    @check Demo.demo 10 7 (@initial Demo.demo Demo.web1 Demo.opts1) = Done report s' ∧
    passed report = false ∧
    Cli.exit_status
      {| Cli.flag_recurse := Some true; Cli.flag_skip := None;
         Cli.flag_format := Some "JSON"; Cli.flag_silent := Some true |}
      report = 0.
Proof.
  eexists _, _. split; [vm_compute; reflexivity|].
  split; [vm_compute; reflexivity|].
  refine (proj1 (@exit_status_of_a_run Demo.demo 10 7
                   (@initial Demo.demo Demo.web1 Demo.opts1) _ _
                   {| Cli.flag_recurse := Some true; Cli.flag_skip := None;
                      Cli.flag_format := Some "JSON";
                      Cli.flag_silent := Some true |} _) _).
  - vm_compute. reflexivity.
  - exists "JSON". split; [reflexivity|]. by left.
Defined.

Lemma link_events_carry_results_witness :
  ∃ report s',
    @check Demo.demo 10 7 (@initial Demo.demo Demo.web1 Demo.opts1) = Done report s' ∧
    carried <$> link_payloads (emitted s') = links report.
Proof.
  eexists _, _. split; [vm_compute; reflexivity|].
  refine (@link_events_carry_results Demo.demo 10 7 Demo.web1 Demo.opts1 _ _ _).
  vm_compute. reflexivity.
Defined.

Lemma fetched_links_were_requested_witness :
  ∃ report s' q,
    @check Demo.demo 10 7 (@initial Demo.demo Demo.web1 Demo.opts1) = Done report s' ∧
    q ∈ requests s' ∧ req_url q = "http://x/a/c".
Proof.
  assert (∃ report s',
            @check Demo.demo 10 7 (@initial Demo.demo Demo.web1 Demo.opts1)
              = Done report s' ∧
            {| url := "http://x/a/c"; status := Some 404; state := BROKEN |}
              ∈ links report) as (report & s' & Hrun & Hr).
  { eexists _, _. split; [vm_compute; reflexivity|].
    apply list_elem_of_In. simpl. tauto. }
  destruct (@fetched_links_were_requested Demo.demo 10 7 Demo.web1 Demo.opts1
              report s' Hrun _ Hr) as (q & Hq & Hu & _); [discriminate|].
  exists report, s', q. by split_and!.
Defined.
